(** * RMSSD across floating-point representations

    A shallow embedding of [rmssd.cpp] (and [InvalidArgument.h]): the
    program loads one decimal value per line of a text file into a
    [std::vector<T>] for [T] one of [float], [double], [long double],
    optionally rounds every value to a number of decimal places, and
    returns the root mean square of the successive differences.

    Floating-point values are IEEE 754 binary values in the style of
    [SpecFloat]: every operation is the correctly rounded one (round to
    nearest, ties to even) of the format [(prec, emax)] of its type, and is
    executable, so the program can be run on concrete inputs inside Rocq.
    The three formats are the ones of an x86-64 System V target: binary32,
    binary64 and the x87 80-bit extended format (64-bit significand) stored
    in 16 bytes, with every expression evaluated in the format of its type
    ([FLT_EVAL_METHOD] = 0). *)

From Stdlib Require Import ZArith List Bool Lia String Ascii DecimalString.
From Stdlib Require Import Reals Lra Psatz.
From Stdlib Require Import SpecFloat.
Import ListNotations.

Local Open Scope Z_scope.

(** ** Representations *)

(** The template parameter [T] of the source. *)
Inductive Representation : Type :=
  | Float
  | Double
  | LongDouble.

(** Number of significand bits, the implicit one included. *)
Definition prec (T : Representation) : Z :=
  match T with
  | Float => 24
  | Double => 53
  | LongDouble => 64
  end.

(** Exponent of the infinities. *)
Definition emax (T : Representation) : Z :=
  match T with
  | Float => 128
  | Double => 1024
  | LongDouble => 16384
  end.

(** [sizeof(T)], in bytes. *)
Definition sizeof (T : Representation) : Z :=
  match T with
  | Float => 4
  | Double => 8
  | LongDouble => 16
  end.

(** A value of type [T]. *)
Definition fp : Type := spec_float.

(** ** Arithmetic of one representation *)

Section Arith.
Variable T : Representation.

(** [x + y], [x - y], [x * y], [x / y] on operands of type [T]. *)
Definition fadd (x y : fp) : fp := SFadd (prec T) (emax T) x y.
Definition fsub (x y : fp) : fp := SFsub (prec T) (emax T) x y.
Definition fmul (x y : fp) : fp := SFmul (prec T) (emax T) x y.
Definition fdiv (x y : fp) : fp := SFdiv (prec T) (emax T) x y.

(** [sqrtf], [sqrt], [sqrtl]. *)
Definition fsqrt (x : fp) : fp := SFsqrt (prec T) (emax T) x.

(** Conversion of an integer to [T] ([static_cast<T>] of a [size_t]). *)
Definition of_Z (z : Z) : fp := binary_normalize (prec T) (emax T) z 0 false.

(** Conversion of a value of another format to [T] ([static_cast<T>] of
    a [double]): a finite value is rounded into the format of [T]. *)
Definition cast (x : fp) : fp :=
  match x with
  | S754_finite s m e =>
      binary_normalize (prec T) (emax T) (cond_Zopp s (Zpos m)) e s
  | _ => x
  end.

(** [static_cast<T>(0.0)]. *)
Definition fzero : fp := cast (S754_zero false).

(** The integer nearest to [m * 2^e], halfway cases away from zero. *)
Definition nearest_integer (m : positive) (e : Z) : Z :=
  if 0 <=? e then Z.shiftl (Zpos m) e
  else
    let q := Z.shiftr (Zpos m) (- e) in
    let r := Zpos m - Z.shiftl q (- e) in
    if Z.shiftl 1 (- e) <=? 2 * r then q + 1 else q.

(** [round] of [<math.h>] at type [T]: the nearest integer value in
    floating-point format, halfway cases away from zero; zeros,
    infinities and NaN are returned unchanged and the sign is kept. *)
Definition fround (x : fp) : fp :=
  match x with
  | S754_finite s m e =>
      binary_normalize (prec T) (emax T) (cond_Zopp s (nearest_integer m e)) 0 s
  | _ => x
  end.
End Arith.

(** [x >= 0] as the comparison of the language evaluates it, in any
    representation: false on a NaN, true on both zeros. *)
Definition fge0 (x : fp) : bool := SFleb (S754_zero false) x.

(** [std::pow(10.0, n)] for an [int] [n]: both operands are promoted to
    [double], so the power is the binary64 value nearest to [10^n]. *)
Definition pow10 (n : Z) : fp :=
  match n with
  | Z0 => of_Z Double 1
  | Zpos _ => of_Z Double (10 ^ n)
  | Zneg p =>
      let '(mz, ez, lz) :=
        SFdiv_core_binary (prec Double) (emax Double) 1 0 (10 ^ Zpos p) 0 in
      binary_round_aux (prec Double) (emax Double) false mz ez lz
  end.

(** ** Exceptions and console output *)

(** The exceptions the program can raise: the class of [InvalidArgument.h]
    with its [errMsg], and the two exceptions of [std::stof], [std::stod]
    and [std::stold], each with its [what()] text. *)
Inductive exn : Type :=
  | InvalidArgument (errMsg : string)
  | std_invalid_argument (what : string)
  | std_out_of_range (what : string).

(** A call either returns or leaves by an exception. *)
Inductive outcome (A : Type) : Type :=
  | Return (a : A)
  | Throw (e : exn).
Arguments Return {A} a.
Arguments Throw {A} e.

(** What the process does on the console: a line on [std::cout], a
    floating-point value on [std::cout] (fixed notation, 80 fractional
    digits) followed by [std::endl], a line on [std::cerr], or the wait for
    a character on [std::cin]. *)
Inductive event : Type :=
  | cout (line : string)
  | cout_fp (T : Representation) (v : fp)
  | cerr (line : string)
  | cin_get.

(** A computation that uses the console and then returns or throws. *)
Definition io (A : Type) : Type := (list event * outcome A)%type.

Definition ret {A : Type} (a : A) : io A := ([], Return a).
Definition throw {A : Type} (e : exn) : io A := ([], Throw e).
Definition print (ev : event) : io unit := ([ev], Return tt).

Definition bind {A B : Type} (c : io A) (k : A -> io B) : io B :=
  match c with
  | (out, Return a) => let (out', r) := k a in (out ++ out', r)
  | (out, Throw e) => (out, Throw e)
  end.

(** A computation without output. *)
Definition lift {A : Type} (r : outcome A) : io A := ([], r).

Declare Scope io_scope.
Delimit Scope io_scope with io.
Notation "x <- c ;; k" := (bind c (fun x => k))
  (at level 61, c at next level, right associativity) : io_scope.
Notation "c ;; k" := (bind c (fun _ => k))
  (at level 61, right associativity) : io_scope.

(** [try { body } catch (InvalidArgument &e) { handler(e.what()) }]: only an
    exception of class [InvalidArgument] is handled; any other one leaves
    the block. *)
Definition try_catch_InvalidArgument (body : io unit)
    (handler : string -> io unit) : io unit :=
  match body with
  | (out, Throw (InvalidArgument errMsg)) =>
      let (out', r) := handler errMsg in (out ++ out', r)
  | _ => body
  end.

(** ** Text of a decimal value: [std::stof], [std::stod], [std::stold]

    The conversion of the C library ([strtof], [strtod], [strtold], "C"
    locale): leading white space is skipped, then an optional sign, then the
    longest prefix that is [inf], [infinity] or [nan] in any case, a
    hexadecimal constant or a decimal constant; what follows is ignored.
    The value is rounded once, to nearest, into the target format. *)

Definition code (c : ascii) : Z := Z.of_N (N_of_ascii c).

Definition is_space (c : ascii) : bool :=
  (code c =? 32) || ((9 <=? code c) && (code c <=? 13)).

Definition digit (c : ascii) : option Z :=
  if (48 <=? code c) && (code c <=? 57) then Some (code c - 48) else None.

Definition xdigit (c : ascii) : option Z :=
  if (48 <=? code c) && (code c <=? 57) then Some (code c - 48)
  else if (65 <=? code c) && (code c <=? 70) then Some (code c - 55)
  else if (97 <=? code c) && (code c <=? 102) then Some (code c - 87)
  else None.

Definition lower (c : ascii) : Z :=
  if (65 <=? code c) && (code c <=? 90) then code c + 32 else code c.

Fixpoint skip_space (s : string) : string :=
  match s with
  | String c s' => if is_space c then skip_space s' else s
  | EmptyString => s
  end.

(** An optional sign: whether it is [-], and the rest. *)
Definition sign (s : string) : bool * string :=
  match s with
  | String c s' =>
      if code c =? 45 then (true, s')
      else if code c =? 43 then (false, s')
      else (false, s)
  | EmptyString => (false, s)
  end.

(** The digits at the head of [s] in the base of [dig], appended to the
    number [acc]; also how many there are, and the rest. *)
Fixpoint scan (dig : ascii -> option Z) (base : Z) (s : string) (acc : Z)
    (count : Z) : Z * Z * string :=
  match s with
  | String c s' =>
      match dig c with
      | Some d => scan dig base s' (base * acc + d) (count + 1)
      | None => (acc, count, s)
      end
  | EmptyString => (acc, count, s)
  end.

(** Digits with an optional point: the number the digits spell, how many
    digits there are, and how many of them follow the point. *)
Definition mantissa (dig : ascii -> option Z) (base : Z) (s : string)
    : Z * Z * Z * string :=
  let '(m1, n1, s1) := scan dig base s 0 0 in
  match s1 with
  | String c t =>
      if code c =? 46 then
        let '(m2, n2, s2) := scan dig base t m1 0 in (m2, n1 + n2, n2, s2)
      else (m1, n1, 0, s1)
  | EmptyString => (m1, n1, 0, s1)
  end.

(** An exponent part introduced by the letter of code [letter] (lower
    case): its value, 0 when there is none. *)
Definition exponent (letter : Z) (s : string) : Z :=
  match s with
  | String c t =>
      if lower c =? letter then
        let (neg, t') := sign t in
        let '(v, n, _) := scan digit 10 t' 0 0 in
        if n =? 0 then 0 else if neg then - v else v
      else 0
  | EmptyString => 0
  end.

(** Whether [s] starts with the letters of [word] (codes of lower-case
    letters), in any case. *)
Fixpoint starts_with (word : list Z) (s : string) : bool :=
  match word, s with
  | [], _ => true
  | w :: word', String c s' => (lower c =? w) && starts_with word' s'
  | _ :: _, EmptyString => false
  end.

(** The subject sequence after the sign. A number is [m * 2^e2 * 10^e10]. *)
Inductive literal : Type :=
  | LitInf
  | LitNan
  | LitNum (m : Z) (e2 e10 : Z).

Definition decimal_literal (s : string) : option literal :=
  let '(m, n, nfrac, rest) := mantissa digit 10 s in
  if n =? 0 then None else Some (LitNum m 0 (exponent 101 rest - nfrac)).

Definition hexadecimal_literal (s : string) : option literal :=
  match s with
  | String z (String x t) =>
      if (code z =? 48) && (lower x =? 120) then
        let '(m, n, nfrac, rest) := mantissa xdigit 16 t in
        if n =? 0 then None
        else Some (LitNum m (exponent 112 rest - 4 * nfrac) 0)
      else None
  | _ => None
  end.

Definition parse_literal (s : string) : option literal :=
  if starts_with [105; 110; 102] s then Some LitInf
  else if starts_with [110; 97; 110] s then Some LitNan
  else
    match hexadecimal_literal s with
    | Some l => Some l
    | None => decimal_literal s
    end.

Section Conversion.
Variable T : Representation.

(** The value of type [T] nearest to [num / den]. *)
Definition round_ratio (s : bool) (num den : Z) : fp :=
  let '(mz, ez, lz) :=
    SFdiv_core_binary (prec T) (emax T) num 0 den 0 in
  binary_round_aux (prec T) (emax T) s mz ez lz.

(** Whether [v] is [num / den] exactly. *)
Definition is_exact (v : fp) (num den : Z) : bool :=
  match v with
  | S754_finite _ m e =>
      if 0 <=? e then Zpos m * 2 ^ e * den =? num
      else Zpos m * den =? num * 2 ^ (- e)
  | _ => false
  end.

(** Whether [v] is below the normal range of [T]. *)
Definition is_tiny (v : fp) : bool :=
  match v with
  | S754_zero _ => true
  | S754_finite _ m _ => Zpos (digits2_pos m) <? prec T
  | _ => false
  end.

(** The C library reports a range error ([ERANGE]) when the value
    overflows, and when it is below the normal range and is not
    represented exactly. *)
Definition range_error (v : fp) (num den : Z) : bool :=
  match v with
  | S754_infinity _ => true
  | _ => is_tiny v && negb (is_exact v num den)
  end.

(** The name under which the conversion reports its errors. *)
Definition sto_name : string :=
  match T with
  | Float => "stof"%string
  | Double => "stod"%string
  | LongDouble => "stold"%string
  end.

(** [stringToFP<T>(numString)]: [std::invalid_argument] when no conversion
    can be done, [std::out_of_range] on a range error. *)
Definition stringToFP (numString : string) : outcome fp :=
  let (neg, s) := sign (skip_space numString) in
  match parse_literal s with
  | None => Throw (std_invalid_argument sto_name)
  | Some LitInf => Return (S754_infinity neg)
  | Some LitNan => Return S754_nan
  | Some (LitNum m e2 e10) =>
      if m =? 0 then Return (S754_zero neg)
      else
        let num := m * 2 ^ (Z.max e2 0) * 10 ^ (Z.max e10 0) in
        let den := 2 ^ (Z.max (- e2) 0) * 10 ^ (Z.max (- e10) 0) in
        let v := round_ratio neg num den in
        if range_error v num den then Throw (std_out_of_range sto_name)
        else Return v
  end.
End Conversion.

(** ** The data file *)

(** The files that can be opened for reading, with their text. *)
Definition filesystem : Type := string -> option string.

(** The lines [std::getline] extracts one after the other until it fails:
    a line ends at a newline, which is dropped, or at the end of the file;
    at the end of the file an extraction that finds no character fails. *)
Fixpoint getlines (text : string) : list string :=
  match text with
  | EmptyString => []
  | String c text' =>
      if code c =? 10 then EmptyString :: getlines text'
      else
        match getlines text' with
        | [] => [String c EmptyString]
        | line :: lines => String c line :: lines
        end
  end.

(** ** [rmssd.cpp] *)

(** [__FILE__], for a compilation from the directory of the source, and
    [std::to_string] of an integer. *)
Definition FILE : string := "rmssd.cpp"%string.
Definition to_string (z : Z) : string :=
  NilEmpty.string_of_int (Z.to_int z).

Section Rmssd.
Variable T : Representation.

(** [squareroot<T>]: one specialisation per type. *)
Definition squareroot (val : fp) : fp := fsqrt T val.

(** [static_cast<T>(std::pow(10.0, roundTo))]. *)
Definition multiplier (roundTo : Z) : fp := cast T (pow10 roundTo).

(** The rounding of one value in [loadIntervals], for [roundTo >= 0]:
    [round(num * multiplier) / multiplier]. *)
Definition round_places (roundTo : Z) (num : fp) : fp :=
  fdiv T (fround T (fmul T num (multiplier roundTo))) (multiplier roundTo).

(** The body of the [while] loop of [loadIntervals] on one line. *)
Definition load_line (roundTo : Z) (numString : string) : outcome fp :=
  match stringToFP T numString with
  | Return num =>
      Return (if 0 <=? roundTo then round_places roundTo num else num)
  | Throw e => Throw e
  end.

(** The [while] loop of [loadIntervals]: [intervals] is the vector built
    so far, [lines] what [std::getline] still has to deliver. *)
Fixpoint load_loop (roundTo : Z) (lines : list string) (intervals : list fp)
    : outcome (list fp) :=
  match lines with
  | [] => Return intervals
  | numString :: lines' =>
      match load_line roundTo numString with
      | Return num => load_loop roundTo lines' (intervals ++ [num])
      | Throw e => Throw e
      end
  end.

(** [loadIntervals<T>(dataFilePath, roundTo)]. *)
Definition loadIntervals (fs : filesystem) (dataFilePath : string)
    (roundTo : Z) : outcome (list fp) :=
  match fs dataFilePath with
  | None =>
      Throw (InvalidArgument
               (FILE ++ ":" ++ to_string 71 ++
                " : could not open data file " ++ dataFilePath)%string)
  | Some text => load_loop roundTo (getlines text) []
  end.

(** Step 1 of [calculateRMSSD]: the loop over [intervals] with its
    iterator (the elements from [it] on, and whether [it] is
    [begin(intervals)]), the variable [prev] and the vector [diffs]. *)
Fixpoint diff_loop (it : list fp) (at_begin : bool) (prev : fp)
    (diffs : list fp) : list fp :=
  match it with
  | [] => diffs
  | x :: it' =>
      diff_loop it' false x
        (if at_begin then diffs else diffs ++ [fsub T x prev])
  end.

(** Step 2: [diff *= diff] on every element. *)
Definition square_loop (diffs : list fp) : list fp :=
  map (fun diff => fmul T diff diff) diffs.

(** Step 3: [sum += diff] over the elements, from [sum]. *)
Definition sum_loop (diffs : list fp) (sum : fp) : fp :=
  fold_left (fun sum diff => fadd T sum diff) diffs sum.

(** The arithmetic of [calculateRMSSD] on the loaded intervals; [prev]
    is declared without a value, and is assigned before it is read. *)
Definition rmssd (intervals : list fp) : fp :=
  let diffs := diff_loop intervals true S754_nan [] in
  let diffs := square_loop diffs in
  let sum := sum_loop diffs (fzero T) in
  let mean := fdiv T sum (of_Z T (Z.of_nat (List.length diffs))) in
  squareroot mean.

(** [calculateRMSSD<T>(dataFilePath, roundTo)]. *)
Definition calculateRMSSD (fs : filesystem) (dataFilePath : string)
    (roundTo : Z) : io fp :=
  (intervals <- lift (loadIntervals fs dataFilePath roundTo) ;;
   if (List.length intervals <? 2)%nat then
     throw (InvalidArgument
              (FILE ++ ":" ++ to_string 108 ++
               " : too few RR intervals to calculate RMSSD")%string)
   else
     print (cout (to_string (sizeof T * 8) ++ "-bit float")%string) ;;
     ret (rmssd intervals))%io.
End Rmssd.

(** One group of statements of [main]: the label, the result of
    [calculateRMSSD<T>], an empty line. *)
Definition report (T : Representation) (label : string) (fs : filesystem)
    (dataFilePath : string) (roundTo : Z) : io unit :=
  (print (cout label) ;;
   v <- calculateRMSSD T fs dataFilePath roundTo ;;
   print (cout_fp T v) ;;
   print (cout ""%string))%io.

Definition EXIT_SUCCESS : Z := 0.

(** [main]: the six calculations in one [try] block, then the prompt. The
    result is the exit status, or the exception that leaves [main]. *)
Definition main (fs : filesystem) : io Z :=
  let dataFilePath := "test/RRIntervals_P7D1_Baseline.txt"%string in
  (try_catch_InvalidArgument
     (report Float "float"%string fs dataFilePath (-1) ;;
      report Double "double"%string fs dataFilePath (-1) ;;
      report LongDouble "long double"%string fs dataFilePath (-1) ;;
      report Float "float (rounded to 3 decimal places)"%string fs dataFilePath 3 ;;
      report Double "double (rounded to 3 decimal places)"%string fs dataFilePath 3 ;;
      report LongDouble "long double (rounded to 3 decimal places)"%string
        fs dataFilePath 3)
     (fun errMsg => print (cerr ("ERROR: " ++ errMsg)%string)) ;;
   print (cout "Press <enter> to exit"%string) ;;
   print cin_get ;;
   ret EXIT_SUCCESS)%io.

(** ** The statements of the specification *)

Definition is_zero (x : fp) : bool :=
  match x with
  | S754_zero _ => true
  | _ => false
  end.

(** A sample is a number: not an infinity, not a NaN. *)
Definition is_number (x : fp) : bool :=
  match x with
  | S754_zero _ | S754_finite _ _ _ => true
  | _ => false
  end.

(** A value that is not a NaN and has the sign [s]. *)
Definition has_sign (s : bool) (x : fp) : Prop :=
  match x with
  | S754_zero s' | S754_infinity s' | S754_finite s' _ _ => s' = s
  | S754_nan => False
  end.

(** A value that is [+0], positive, or [+infinity]. *)
Definition nonneg (x : fp) : Prop := has_sign false x.

(** A value that is neither a zero nor a NaN. *)
Definition nonzero (x : fp) : Prop :=
  match x with
  | S754_infinity _ | S754_finite _ _ _ => True
  | S754_zero _ | S754_nan => False
  end.

Definition not_nan (x : fp) : Prop :=
  match x with
  | S754_nan => False
  | _ => True
  end.

(** The real value of a power of two and of a significand at an
    exponent. *)
Definition bpow (e : Z) : R := powerRZ 2 e.


Section Specification.
Variable T : Representation.

(** The difference sequence, by index: [diff[i-1] = sample[i] -
    sample[i-1]] for [i] from 1 to [n - 1]. *)
Definition successive_differences (sample : list fp) : list fp :=
  map (fun i => fsub T (nth i sample S754_nan) (nth (i - 1) sample S754_nan))
      (seq 1 (List.length sample - 1)).

(** Accumulation from the left. *)
Fixpoint accumulate (acc : fp) (xs : list fp) : fp :=
  match xs with
  | [] => acc
  | x :: xs' => accumulate (fadd T acc x) xs'
  end.

(** The five steps of the calculator as the specification words them. *)
Definition rmssd_spec (sample : list fp) : fp :=
  let diff := successive_differences sample in
  let squares := map (fun d => fmul T d d) diff in
  let sum := accumulate (S754_zero false) squares in
  let mean := fdiv T sum (of_Z T (Z.of_nat (List.length sample - 1))) in
  fsqrt T mean.

(** [10^N] computed in the representation itself: the value of [T]
    nearest to the power. *)
Definition pow10_in (N : Z) : fp := of_Z T (10 ^ N).


End Specification.

(** The (representation, rounding policy) combinations of the driver, in
    program order, with their labels. *)
Definition combinations : list (Representation * string * Z) :=
  [ (Float, "float"%string, -1);
    (Double, "double"%string, -1);
    (LongDouble, "long double"%string, -1);
    (Float, "float (rounded to 3 decimal places)"%string, 3);
    (Double, "double (rounded to 3 decimal places)"%string, 3);
    (LongDouble, "long double (rounded to 3 decimal places)"%string, 3) ].

Definition dataFilePath : string := "test/RRIntervals_P7D1_Baseline.txt"%string.

(** The statement groups of [main] for a list of combinations. *)
Fixpoint reports (cs : list (Representation * string * Z)) (fs : filesystem)
    : io unit :=
  match cs with
  | [] => ret tt
  | (T, label, roundTo) :: cs' =>
      (report T label fs dataFilePath roundTo ;; reports cs' fs)%io
  end.

(** A file system whose only file is the data file of [main]. *)
Definition data_file (text : string) : filesystem :=
  fun path => if String.eqb path dataFilePath then Some text else None.

(** Whether the console shows the label of a combination. *)
Definition reported (out : list event) (c : Representation * string * Z)
    : Prop :=
  In (cout (snd (fst c))) out.

Definition newline : string := String (ascii_of_nat 10) EmptyString.

(** ** Notions for the behaviour at the edges *)

(** A line made of white space only, the empty line included. *)
Fixpoint blank (line : string) : bool :=
  match line with
  | EmptyString => true
  | String c line' => is_space c && blank line'
  end.

(** A text made of decimal digits only. *)
Fixpoint all_digits (s : string) : bool :=
  match s with
  | EmptyString => true
  | String c s' =>
      match digit c with
      | Some _ => all_digits s'
      | None => false
      end
  end.

(** Whether the conversion goes on reading after the digits of an integer
    when it meets [c]: a digit, the point, the letter of an exponent or,
    behind a zero, the letter of a hexadecimal constant. *)
Definition continues_number (c : ascii) : bool :=
  match digit c with
  | Some _ => true
  | None => (code c =? 46) || (lower c =? 101) || (lower c =? 120)
  end.

(** What one statement group of [main] writes when its calculation
    returns [v]. *)
Definition report_events (T : Representation) (label : string) (v : fp)
    : list event :=
  [cout label; cout (to_string (sizeof T * 8) ++ "-bit float")%string;
   cout_fp T v; cout ""%string].

(** The largest number of decimal places for which the multiplier of the
    rounding is finite. *)
Definition max_places (T : Representation) : Z :=
  match T with
  | Float => 38
  | Double | LongDouble => 308
  end.

(** A line that starts with neither white space nor a sign. *)
Definition unsigned (line : string) : bool :=
  match line with
  | String c _ =>
      negb (is_space c) && negb (code c =? 45) && negb (code c =? 43)
  | EmptyString => true
  end.

(** The line with a minus sign in front. *)
Definition minus (line : string) : string := String "-"%char line.

(** A line holds no newline. *)
Fixpoint no_newline (line : string) : bool :=
  match line with
  | EmptyString => true
  | String c line' => negb (code c =? 10) && no_newline line'
  end.

(** The text of a file written line by line, a newline behind each. *)
Fixpoint unlines (lines : list string) : string :=
  match lines with
  | [] => EmptyString
  | line :: lines' => (line ++ newline ++ unlines lines')%string
  end.

(** * Properties *)

(** ** The loops of the calculator *)

Section Calculator.
Variable T : Representation.

Lemma diff_loop_app (it : list fp) (prev : fp) (diffs : list fp) :
  diff_loop T it false prev diffs = diffs ++ diff_loop T it false prev [].
Proof.
  revert prev diffs.
  induction it as [|x it IH]; intros prev diffs; simpl.
  - now rewrite app_nil_r.
  - rewrite (IH x (diffs ++ _)), (IH x [_]).
    now rewrite <- app_assoc.
Qed.

(** After its first iteration the loop holds the differences of the list
    made of [prev] and of what remains. *)
Lemma diff_loop_differences (it : list fp) (prev : fp) :
  diff_loop T it false prev [] = successive_differences T (prev :: it).
Proof.
  revert prev.
  induction it as [|x it IH]; intros prev.
  - reflexivity.
  - cbn [diff_loop app].
    rewrite diff_loop_app, IH.
    unfold successive_differences.
    cbn [List.length Nat.sub].
    rewrite Nat.sub_0_r.
    change (seq 1 (S (List.length it))) with (1%nat :: seq 2 (List.length it)).
    cbn [map nth Nat.sub app]. f_equal.
    rewrite <- (seq_shift (List.length it) 1), map_map.
    apply map_ext_in.
    intros i Hi. apply in_seq in Hi.
    destruct i as [|i]; [lia|].
    cbn [Nat.sub nth]. now rewrite Nat.sub_0_r.
Qed.

Lemma diff_loop_from_begin (intervals : list fp) (prev : fp) :
  diff_loop T intervals true prev [] = successive_differences T intervals.
Proof.
  destruct intervals as [|x it]; [reflexivity|].
  apply diff_loop_differences.
Qed.

Lemma successive_differences_length (sample : list fp) :
  List.length (successive_differences T sample) = (List.length sample - 1)%nat.
Proof.
  unfold successive_differences.
  now rewrite length_map, length_seq.
Qed.

Lemma successive_differences_nth (sample : list fp) (i : nat) :
  (1 <= i <= List.length sample - 1)%nat ->
  nth (i - 1) (successive_differences T sample) S754_nan =
  fsub T (nth i sample S754_nan) (nth (i - 1) sample S754_nan).
Proof.
  intros Hi. unfold successive_differences.
  set (f := fun i => fsub T (nth i sample S754_nan) (nth (i - 1) sample S754_nan)).
  rewrite (nth_indep _ S754_nan (f 0%nat))
    by (rewrite length_map, length_seq; lia).
  rewrite map_nth, seq_nth by lia.
  now replace (1 + (i - 1))%nat with i by lia.
Qed.

Lemma sum_loop_accumulate (diffs : list fp) (sum : fp) :
  sum_loop T diffs sum = accumulate T sum diffs.
Proof.
  revert sum. induction diffs as [|d diffs IH]; intros sum; [reflexivity|].
  apply IH.
Qed.

(** The arithmetic of the source is the one of the five steps. *)
Lemma rmssd_steps (intervals : list fp) :
  rmssd T intervals = rmssd_spec T intervals.
Proof.
  unfold rmssd, rmssd_spec, squareroot, square_loop.
  rewrite diff_loop_from_begin, sum_loop_accumulate.
  now rewrite length_map, successive_differences_length.
Qed.

(** What a call does once the intervals are loaded. *)
Lemma calculateRMSSD_loaded (fs : filesystem) (path : string) (roundTo : Z)
    (intervals : list fp) :
  loadIntervals T fs path roundTo = Return intervals ->
  calculateRMSSD T fs path roundTo =
  if (List.length intervals <? 2)%nat then
    ([], Throw (InvalidArgument
                  (FILE ++ ":108 : too few RR intervals to calculate RMSSD")))
  else
    ([cout (to_string (sizeof T * 8) ++ "-bit float")],
     Return (rmssd T intervals)).
Proof.
  intros Hload. unfold calculateRMSSD, lift. rewrite Hload.
  cbn [bind]. destruct (List.length intervals <? 2)%nat; reflexivity.
Qed.

Lemma calculateRMSSD_not_loaded (fs : filesystem) (path : string)
    (roundTo : Z) (e : exn) :
  loadIntervals T fs path roundTo = Throw e ->
  calculateRMSSD T fs path roundTo = ([], Throw e).
Proof.
  intros Hload. unfold calculateRMSSD, lift. now rewrite Hload.
Qed.
End Calculator.

(** C4. For a sample sequence of length [n >= 2] the calculator holds the
    [n - 1] differences [diff[i-1] = sample[i] - sample[i-1]], and returns
    the square root of the mean (the division by [n - 1]) of their squares
    summed from the left, from zero. *)
Theorem calculateRMSSD_computes_rmssd (T : Representation) (fs : filesystem)
    (path : string) (roundTo : Z) (sample : list fp) :
  loadIntervals T fs path roundTo = Return sample ->
  (2 <= List.length sample)%nat ->
  let diffs := diff_loop T sample true S754_nan [] in
  List.length diffs = (List.length sample - 1)%nat /\
  (forall i, (1 <= i <= List.length sample - 1)%nat ->
     nth (i - 1) diffs S754_nan =
     fsub T (nth i sample S754_nan) (nth (i - 1) sample S754_nan)) /\
  rmssd T sample =
    fsqrt T (fdiv T (fold_left (fadd T) (map (fun d => fmul T d d) diffs)
                               (S754_zero false))
                    (of_Z T (Z.of_nat (List.length sample - 1)))) /\
  snd (calculateRMSSD T fs path roundTo) = Return (rmssd T sample).
Proof.
  intros Hload Hlen diffs. subst diffs.
  rewrite diff_loop_from_begin.
  split; [apply successive_differences_length|].
  split; [apply successive_differences_nth|].
  split.
  - rewrite rmssd_steps. unfold rmssd_spec. do 2 f_equal.
    generalize (map (fun d => fmul T d d) (successive_differences T sample)).
    generalize (S754_zero false).
    intros acc l. revert acc. induction l as [|x l IH]; intros acc; [reflexivity|].
    apply IH.
  - rewrite (calculateRMSSD_loaded T fs path roundTo sample Hload).
    destruct (Nat.ltb_spec (List.length sample) 2); [lia|reflexivity].
Qed.

Lemma calculateRMSSD_computes_rmssd_witness :
  loadIntervals Double
    (data_file ("1000" ++ newline ++ "1020" ++ newline ++ "1000" ++ newline ++
                "1050")) dataFilePath 3 =
    Return [of_Z Double 1000; of_Z Double 1020; of_Z Double 1000;
            of_Z Double 1050] /\
  diff_loop Double
    [of_Z Double 1000; of_Z Double 1020; of_Z Double 1000; of_Z Double 1050]
    true S754_nan [] =
    [of_Z Double 20; of_Z Double (-20); of_Z Double 50] /\
  snd (calculateRMSSD Double
         (data_file ("1000" ++ newline ++ "1020" ++ newline ++ "1000" ++
                     newline ++ "1050")) dataFilePath 3) =
    Return (fsqrt Double (of_Z Double 1100)).
Proof.
  assert (Hload : loadIntervals Double
                    (data_file ("1000" ++ newline ++ "1020" ++ newline ++
                                "1000" ++ newline ++ "1050"))
                    dataFilePath 3 =
                  Return [of_Z Double 1000; of_Z Double 1020; of_Z Double 1000;
                          of_Z Double 1050])
    by (vm_compute; reflexivity).
  assert (Hlen : (2 <= List.length [of_Z Double 1000; of_Z Double 1020;
                                    of_Z Double 1000; of_Z Double 1050])%nat)
    by (simpl; lia).
  split; [exact Hload|]. split; [vm_compute; reflexivity|].
  destruct (calculateRMSSD_computes_rmssd Double _ dataFilePath 3 _ Hload Hlen)
    as (_ & _ & _ & Hcall).
  rewrite Hcall. vm_compute. reflexivity.
Defined.

(** C5. When fewer than two samples are loaded, the empty sequence
    included, the calculation fails with the [InvalidArgument] "too few RR
    intervals" and yields no result, and nothing is written. *)
Theorem calculateRMSSD_too_few_samples (T : Representation) (fs : filesystem)
    (path : string) (roundTo : Z) (sample : list fp) :
  loadIntervals T fs path roundTo = Return sample ->
  (List.length sample < 2)%nat ->
  calculateRMSSD T fs path roundTo =
  ([], Throw (InvalidArgument
                (FILE ++ ":108 : too few RR intervals to calculate RMSSD"))).
Proof.
  intros Hload Hlen.
  rewrite (calculateRMSSD_loaded T fs path roundTo sample Hload).
  destruct (Nat.ltb_spec (List.length sample) 2); [reflexivity|lia].
Qed.

Lemma calculateRMSSD_too_few_samples_witness :
  loadIntervals Double (data_file "812.5") dataFilePath 3 =
    Return [S754_finite false 7146825580544000 (-43)] /\
  (List.length [S754_finite false 7146825580544000 (-43)] < 2)%nat /\
  calculateRMSSD Double (data_file "812.5") dataFilePath 3 =
  ([], Throw (InvalidArgument
                (FILE ++ ":108 : too few RR intervals to calculate RMSSD"))).
Proof.
  assert (Hload : loadIntervals Double (data_file "812.5") dataFilePath 3 =
                  Return [S754_finite false 7146825580544000 (-43)])
    by (vm_compute; reflexivity).
  assert (Hlen : (List.length [S754_finite false 7146825580544000 (-43)] < 2)%nat)
    by (simpl; lia).
  split; [exact Hload|]. split; [exact Hlen|].
  exact (calculateRMSSD_too_few_samples Double (data_file "812.5")
           dataFilePath 3 _ Hload Hlen).
Defined.

(** ** The loader *)

Section Loader.
Variable T : Representation.

(** The loop appends to [intervals] one value per line, in the order of
    the lines. *)
Lemma load_loop_lines (roundTo : Z) (lines : list string)
    (intervals result : list fp) :
  load_loop T roundTo lines intervals = Return result ->
  exists loaded,
    result = intervals ++ loaded /\
    Forall2 (fun line num => load_line T roundTo line = Return num)
            lines loaded.
Proof.
  revert intervals.
  induction lines as [|line lines IH]; intros intervals Hloop.
  - exists []. cbn in Hloop. injection Hloop as <-.
    now rewrite app_nil_r.
  - cbn [load_loop] in Hloop.
    destruct (load_line T roundTo line) as [num|e] eqn:Hline; [|discriminate].
    destruct (IH _ Hloop) as (loaded & -> & Hall).
    exists (num :: loaded). split.
    + now rewrite <- app_assoc.
    + now constructor.
Qed.

(** The loop ends normally as soon as every line converts. *)
Lemma load_loop_returns (roundTo : Z) (lines : list string)
    (intervals : list fp) :
  Forall (fun line => exists num, stringToFP T line = Return num) lines ->
  exists result, load_loop T roundTo lines intervals = Return result.
Proof.
  intros Hall. revert intervals.
  induction Hall as [|line lines [num Hnum] _ IH]; intros intervals.
  - now exists intervals.
  - cbn [load_loop]. unfold load_line. rewrite Hnum. apply IH.
Qed.


(** The conversion leaves by one of its two exceptions only. *)
Lemma stringToFP_throws (numString : string) (e : exn) :
  stringToFP T numString = Throw e ->
  e = std_invalid_argument (sto_name T) \/ e = std_out_of_range (sto_name T).
Proof.
  unfold stringToFP.
  destruct (sign (skip_space numString)) as [neg s].
  destruct (parse_literal s) as [[| |m e2 e10]|]; try discriminate.
  - destruct (m =? 0); [discriminate|].
    destruct (range_error T _ _ _); [|discriminate].
    intros [= <-]. now right.
  - intros [= <-]. now left.
Qed.

(** Without rounding a line is stored as converted. *)
Lemma load_line_no_rounding (roundTo : Z) (numString : string) :
  roundTo < 0 ->
  load_line T roundTo numString = stringToFP T numString.
Proof.
  intros Hneg. unfold load_line.
  destruct (Z.leb_spec 0 roundTo); [lia|].
  now destruct (stringToFP T numString).
Qed.

Lemma load_loop_no_rounding (roundTo : Z) (lines : list string)
    (intervals : list fp) :
  roundTo < 0 ->
  load_loop T roundTo lines intervals = load_loop T (-1) lines intervals.
Proof.
  intros Hneg. revert intervals.
  induction lines as [|line lines IH]; intros intervals; [reflexivity|].
  cbn [load_loop].
  rewrite (load_line_no_rounding roundTo), (load_line_no_rounding (-1)) by lia.
  destruct (stringToFP T line); [apply IH|reflexivity].
Qed.
End Loader.

(** C9. When the data file can be read and every line converts, the loader
    returns a sequence with exactly one sample per line, the sample of the
    i-th line at the i-th place. *)
Theorem loadIntervals_one_sample_per_line (T : Representation)
    (fs : filesystem) (path : string) (roundTo : Z) (text : string) :
  fs path = Some text ->
  Forall (fun line => exists num, stringToFP T line = Return num)
         (getlines text) ->
  exists intervals,
    loadIntervals T fs path roundTo = Return intervals /\
    List.length intervals = List.length (getlines text) /\
    Forall2 (fun line num => load_line T roundTo line = Return num)
            (getlines text) intervals.
Proof.
  intros Hopen Hall. unfold loadIntervals. rewrite Hopen.
  destruct (load_loop_returns T roundTo _ [] Hall) as [result Hloop].
  destruct (load_loop_lines T roundTo _ _ _ Hloop) as (loaded & -> & Hlines).
  exists loaded. cbn [app] in Hloop.
  split; [exact Hloop|]. split; [|exact Hlines].
  symmetry. exact (Forall2_length Hlines).
Qed.

(** C10. Every negative [roundTo] is the policy without rounding: the
    loader does what it does for -1, and stores each sample as
    converted. *)
Theorem loadIntervals_negative_roundTo (T : Representation) (fs : filesystem)
    (path : string) (roundTo : Z) :
  roundTo < 0 ->
  loadIntervals T fs path roundTo = loadIntervals T fs path (-1) /\
  forall text intervals,
    fs path = Some text ->
    loadIntervals T fs path roundTo = Return intervals ->
    Forall2 (fun line num => stringToFP T line = Return num)
            (getlines text) intervals.
Proof.
  intros Hneg. split.
  - unfold loadIntervals. destruct (fs path); [|reflexivity].
    now apply load_loop_no_rounding.
  - intros text intervals Hopen. unfold loadIntervals. rewrite Hopen.
    intros Hloop.
    destruct (load_loop_lines T roundTo _ _ _ Hloop) as (loaded & -> & Hlines).
    cbn [app]. clear Hloop.
    induction Hlines as [|line num lines loaded Hline _ IH]; constructor.
    + now rewrite <- (load_line_no_rounding T roundTo).
    + exact IH.
Qed.

Lemma loadIntervals_one_sample_per_line_witness :
  data_file ("1000" ++ newline ++ "1020.5" ++ newline) dataFilePath =
    Some ("1000" ++ newline ++ "1020.5" ++ newline)%string /\
  Forall (fun line => exists num, stringToFP Float line = Return num)
         (getlines ("1000" ++ newline ++ "1020.5" ++ newline)) /\
  exists intervals,
    loadIntervals Float (data_file ("1000" ++ newline ++ "1020.5" ++ newline))
      dataFilePath 3 = Return intervals /\
    List.length intervals =
      List.length (getlines ("1000" ++ newline ++ "1020.5" ++ newline)) /\
    Forall2 (fun line num => load_line Float 3 line = Return num)
            (getlines ("1000" ++ newline ++ "1020.5" ++ newline)) intervals.
Proof.
  assert (Hopen : data_file ("1000" ++ newline ++ "1020.5" ++ newline)
                    dataFilePath =
                  Some ("1000" ++ newline ++ "1020.5" ++ newline)%string)
    by reflexivity.
  assert (Hall : Forall (fun line => exists num, stringToFP Float line = Return num)
                   (getlines ("1000" ++ newline ++ "1020.5" ++ newline))).
  { vm_compute getlines.
    repeat constructor; eexists; vm_compute; reflexivity. }
  split; [exact Hopen|]. split; [exact Hall|].
  exact (loadIntervals_one_sample_per_line Float _ dataFilePath 3 _ Hopen Hall).
Defined.

Lemma loadIntervals_negative_roundTo_witness :
  -7 < 0 /\
  loadIntervals LongDouble (data_file "0.1") dataFilePath (-7) =
    loadIntervals LongDouble (data_file "0.1") dataFilePath (-1) /\
  forall text intervals,
    data_file "0.1" dataFilePath = Some text ->
    loadIntervals LongDouble (data_file "0.1") dataFilePath (-7) =
      Return intervals ->
    Forall2 (fun line num => stringToFP LongDouble line = Return num)
            (getlines text) intervals.
Proof.
  assert (Hneg : -7 < 0) by lia.
  split; [exact Hneg|].
  exact (loadIntervals_negative_roundTo LongDouble (data_file "0.1")
           dataFilePath (-7) Hneg).
Defined.

(** ** The driver *)

Section Driver.
Variable fs : filesystem.

Lemma bind_ret_tt (c : io unit) : bind c (fun _ => ret tt) = c.
Proof.
  destruct c as [out [[]|e]]; cbn; [|reflexivity].
  now rewrite app_nil_r.
Qed.

(** [main] runs the statement groups of its six combinations. *)
Lemma main_reports :
  main fs =
  (try_catch_InvalidArgument (reports combinations fs)
     (fun errMsg => print (cerr ("ERROR: " ++ errMsg)%string)) ;;
   print (cout "Press <enter> to exit"%string) ;;
   print cin_get ;;
   ret EXIT_SUCCESS)%io.
Proof.
  unfold main, combinations. cbn [reports].
  now rewrite bind_ret_tt.
Qed.

(** A call that throws has written nothing. *)
Lemma calculateRMSSD_throws_silently (T : Representation) (path : string)
    (roundTo : Z) (e : exn) :
  snd (calculateRMSSD T fs path roundTo) = Throw e ->
  calculateRMSSD T fs path roundTo = ([], Throw e).
Proof.
  destruct (loadIntervals T fs path roundTo) as [intervals|e'] eqn:Hload.
  - rewrite (calculateRMSSD_loaded T fs path roundTo intervals Hload).
    destruct (List.length intervals <? 2)%nat; cbn; [|discriminate].
    now intros [= <-].
  - rewrite (calculateRMSSD_not_loaded T fs path roundTo e' Hload).
    cbn. now intros [= <-].
Qed.

(** A statement group whose call returns runs to its end. *)
Lemma report_returns (T : Representation) (label : string) (roundTo : Z)
    (v : fp) :
  snd (calculateRMSSD T fs dataFilePath roundTo) = Return v ->
  snd (report T label fs dataFilePath roundTo) = Return tt.
Proof.
  unfold report.
  destruct (calculateRMSSD T fs dataFilePath roundTo) as [out r].
  cbn. now intros ->.
Qed.

(** A statement group whose call throws ends after its label. *)
Lemma report_throws (T : Representation) (label : string) (roundTo : Z)
    (e : exn) :
  snd (calculateRMSSD T fs dataFilePath roundTo) = Throw e ->
  report T label fs dataFilePath roundTo = ([cout label], Throw e).
Proof.
  intros Hcall. unfold report.
  now rewrite (calculateRMSSD_throws_silently _ _ _ _ Hcall).
Qed.

(** The statement groups run in order up to the first call that throws:
    the groups before it are complete, the ones after it do not run. *)
Lemma reports_first_throw (before after : list (Representation * string * Z))
    (T : Representation) (label : string) (roundTo : Z) (e : exn) :
  Forall (fun c => exists v,
            snd (calculateRMSSD (fst (fst c)) fs dataFilePath (snd c)) =
            Return v) before ->
  snd (calculateRMSSD T fs dataFilePath roundTo) = Throw e ->
  reports (before ++ (T, label, roundTo) :: after) fs =
  (fst (reports before fs) ++ [cout label], Throw e).
Proof.
  intros Hbefore Hcall.
  induction Hbefore as [|[[T' label'] roundTo'] before [v Hv] _ IH].
  - cbn [app reports]. now rewrite (report_throws _ _ _ _ Hcall).
  - cbn [app reports fst snd] in *. rewrite IH.
    pose proof (report_returns T' label' roundTo' v Hv) as Hret.
    destruct (report T' label' fs dataFilePath roundTo') as [out r].
    cbn in Hret. subst r. cbn [bind].
    destruct (reports before fs) as [out' r'].
    cbn. now rewrite app_assoc.
Qed.
End Driver.

(** C2, as the driver does it. The six combinations run in program order
    inside one handler: when the calculation of one of them fails with an
    [InvalidArgument] (data file not readable, too few samples) and the ones
    before it returned, their results stay reported, the error is caught
    and reported once, no later combination is evaluated, and the process
    prompts and exits with success. *)
Theorem main_stops_at_first_InvalidArgument (fs : filesystem)
    (before after : list (Representation * string * Z))
    (T : Representation) (label : string) (roundTo : Z) (errMsg : string) :
  combinations = before ++ (T, label, roundTo) :: after ->
  Forall (fun c => exists v,
            snd (calculateRMSSD (fst (fst c)) fs dataFilePath (snd c)) =
            Return v) before ->
  snd (calculateRMSSD T fs dataFilePath roundTo) =
    Throw (InvalidArgument errMsg) ->
  main fs =
  (fst (reports before fs) ++
     [cout label; cerr ("ERROR: " ++ errMsg);
      cout "Press <enter> to exit"; cin_get],
   Return EXIT_SUCCESS).
Proof.
  intros Hsplit Hbefore Hcall.
  rewrite main_reports, Hsplit.
  rewrite (reports_first_throw fs before after T label roundTo _ Hbefore Hcall).
  cbn. now rewrite <- !app_assoc.
Qed.

Lemma main_stops_at_first_InvalidArgument_witness :
  combinations =
    [] ++ (Float, "float"%string, -1) :: tl combinations /\
  Forall (fun c : Representation * string * Z => exists v,
            snd (calculateRMSSD (fst (fst c)) (data_file "") dataFilePath
                   (snd c)) = Return v) [] /\
  snd (calculateRMSSD Float (data_file "") dataFilePath (-1)) =
    Throw (InvalidArgument
             "rmssd.cpp:108 : too few RR intervals to calculate RMSSD") /\
  main (data_file "") =
  (fst (reports [] (data_file "")) ++
     [cout "float";
      cerr "ERROR: rmssd.cpp:108 : too few RR intervals to calculate RMSSD";
      cout "Press <enter> to exit"; cin_get],
   Return EXIT_SUCCESS).
Proof.
  assert (Hsplit : combinations =
                   [] ++ (Float, "float"%string, -1) :: tl combinations)
    by reflexivity.
  assert (Hcall : snd (calculateRMSSD Float (data_file "") dataFilePath (-1)) =
                  Throw (InvalidArgument
                    "rmssd.cpp:108 : too few RR intervals to calculate RMSSD"))
    by reflexivity.
  split; [exact Hsplit|]. split; [constructor|]. split; [exact Hcall|].
  exact (main_stops_at_first_InvalidArgument (data_file "") [] (tl combinations)
           Float "float" (-1) _ Hsplit (Forall_nil _) Hcall).
Defined.

(** C2 as stated fails on an empty data file: the first calculation fails,
    the error is reported, and the five other combinations are not
    evaluated. *)
Lemma main_empty_file_reports_one_combination :
  main (data_file "") =
    ([cout "float";
      cerr "ERROR: rmssd.cpp:108 : too few RR intervals to calculate RMSSD";
      cout "Press <enter> to exit"; cin_get],
     Return EXIT_SUCCESS) /\
  ~ (forall c, In c combinations -> reported (fst (main (data_file ""))) c).
Proof.
  split; [reflexivity|].
  intros Hall.
  specialize (Hall (Double, "double"%string, -1) (or_intror (or_introl eq_refl))).
  unfold reported in Hall. cbn in Hall.
  repeat (destruct Hall as [Hall|Hall]; [discriminate Hall|]).
  exact Hall.
Qed.




(** ** Digits of significands and shifts

    The number of binary digits of a significand, and what the shifts of
    the rounding do to it, in any format. *)

Lemma Zdigits2_nonneg (m : Z) : 0 <= Zdigits2 m.
Proof. destruct m; cbn; lia. Qed.

Lemma Zdigits2_pos (m : Z) : m <> 0 -> 0 < Zdigits2 m.
Proof. destruct m; cbn; lia. Qed.

Lemma Zdigits2_0 (m : Z) : Zdigits2 m = 0 -> m = 0.
Proof. destruct m; cbn; lia. Qed.

Lemma digits2_pos_succ (p : positive) :
  (digits2_pos p <= digits2_pos (Pos.succ p) <= digits2_pos p + 1)%positive.
Proof.
  induction p as [p IH|p IH|]; cbn; lia.
Qed.

Lemma Zdigits2_succ (m : Z) :
  0 <= m -> Zdigits2 m <= Zdigits2 (m + 1) <= Zdigits2 m + 1.
Proof.
  intros Hm. destruct m as [|p|p]; [cbn; lia| |lia].
  replace (Z.pos p + 1) with (Z.pos (Pos.succ p)) by lia.
  pose proof (digits2_pos_succ p). cbn. lia.
Qed.

Lemma digits2_pos_shift (m d : positive) :
  digits2_pos (Pos.iter xO m d) = (digits2_pos m + d)%positive.
Proof.
  induction d as [|d IH] using Pos.peano_ind.
  - cbn. lia.
  - rewrite Pos.iter_succ. cbn. rewrite IH. lia.
Qed.

Lemma digits2_pos_lower (p : positive) :
  2 ^ (Z.pos (digits2_pos p) - 1) <= Z.pos p.
Proof.
  induction p as [p IH|p IH|]; cbn [digits2_pos]; [| |cbn; lia].
  - rewrite Pos2Z.inj_succ.
    replace (Z.succ (Z.pos (digits2_pos p)) - 1)
      with (Z.succ (Z.pos (digits2_pos p) - 1)) by lia.
    rewrite Z.pow_succ_r by lia. lia.
  - rewrite Pos2Z.inj_succ.
    replace (Z.succ (Z.pos (digits2_pos p)) - 1)
      with (Z.succ (Z.pos (digits2_pos p) - 1)) by lia.
    rewrite Z.pow_succ_r by lia. lia.
Qed.

Lemma digits2_pos_bound (p : positive) (k : Z) :
  0 <= k -> Z.pos p < 2 ^ k -> Z.pos (digits2_pos p) <= k.
Proof.
  intros Hk Hp. pose proof (digits2_pos_lower p) as Hlow.
  destruct (Z.le_gt_cases (Z.pos (digits2_pos p)) k) as [|Hgt]; [assumption|].
  assert (2 ^ k <= 2 ^ (Z.pos (digits2_pos p) - 1))
    by (apply Z.pow_le_mono_r; lia).
  lia.
Qed.

Lemma shl_align_spec (mx : positive) (ex ex' : Z) :
  let '(mz, ez) := shl_align mx ex ex' in
  ez = Z.min ex ex' /\
  Z.pos (digits2_pos mz) + ez = Z.pos (digits2_pos mx) + ex.
Proof.
  unfold shl_align.
  destruct (ex' - ex) as [|d|d] eqn:Hd; [lia|lia|].
  rewrite digits2_pos_shift. lia.
Qed.

Lemma shr_1_nonneg (mrs : shr_record) :
  0 <= shr_m mrs -> 0 <= shr_m (shr_1 mrs).
Proof.
  destruct mrs as [[|[p|p|]|p] r s]; cbn; intros H; lia.
Qed.

Lemma shr_1_digits (mrs : shr_record) :
  Zdigits2 (shr_m (shr_1 mrs)) = Z.max 0 (Zdigits2 (shr_m mrs) - 1).
Proof.
  destruct mrs as [[|[p|p|]|[p|p|]] r s];
    unfold shr_1; cbn [shr_m Zdigits2 digits2_pos]; lia.
Qed.

Lemma iter_shr_1_nonneg (n : positive) (mrs : shr_record) :
  0 <= shr_m mrs -> 0 <= shr_m (iter_pos shr_1 n mrs).
Proof.
  revert mrs.
  induction n as [n IH|n IH|]; intros mrs Hm; cbn [iter_pos];
    auto using shr_1_nonneg.
Qed.

Lemma iter_shr_1_digits (n : positive) (mrs : shr_record) :
  Zdigits2 (shr_m (iter_pos shr_1 n mrs)) =
  Z.max 0 (Zdigits2 (shr_m mrs) - Z.pos n).
Proof.
  revert mrs.
  induction n as [n IH|n IH|]; intros mrs; cbn [iter_pos].
  - rewrite !IH, shr_1_digits. lia.
  - rewrite !IH. lia.
  - apply shr_1_digits.
Qed.

Lemma shr_record_of_loc_m (m : Z) (l : location) :
  shr_m (shr_record_of_loc m l) = m.
Proof. now destruct l as [|[]]. Qed.

Lemma round_nearest_even_digits (m : Z) (l : location) :
  0 <= m ->
  0 <= round_nearest_even m l /\
  Zdigits2 m <= Zdigits2 (round_nearest_even m l) <= Zdigits2 m + 1.
Proof.
  intros Hm. pose proof (Zdigits2_succ m Hm).
  destruct l as [|[]]; cbn [round_nearest_even];
    try destruct (Z.even m); split; lia.
Qed.

(** ** Signs and zeros of the rounded operations

    The facts below hold in every binary format with at least one
    significand bit and [prec < emax]. They follow the significand through
    the shifts of the rounding by its number of digits. *)

Section FormatFacts.
Variables prec emax : Z.
Hypothesis prec_gt_0 : 0 < prec.
Hypothesis prec_below_emax : prec < emax.

Lemma emin_nonpos : emin prec emax <= 0.
Proof. unfold emin. lia. Qed.

Lemma fexp_spec (e : Z) :
  fexp prec emax e = Z.max (e - prec) (emin prec emax).
Proof. reflexivity. Qed.

(** What [shr_fexp] does to a significand [m >= 0] at exponent [e]: the
    exponent becomes the larger of [e] and [fexp] of the magnitude, and
    the significand loses as many digits. *)
Lemma shr_fexp_spec (m e : Z) (l : location) :
  0 <= m ->
  let '(mrs, e') := shr_fexp prec emax m e l in
  0 <= shr_m mrs /\
  e' = Z.max e (fexp prec emax (Zdigits2 m + e)) /\
  Zdigits2 (shr_m mrs) = Z.max 0 (Zdigits2 m - (e' - e)).
Proof.
  intros Hm. unfold shr_fexp, shr.
  pose proof (Zdigits2_nonneg m) as Hd.
  destruct (fexp prec emax (Zdigits2 m + e) - e) as [|n|n] eqn:Hn;
    rewrite ?shr_record_of_loc_m.
  - repeat split; lia.
  - split; [|split].
    + apply iter_shr_1_nonneg. now rewrite shr_record_of_loc_m.
    + lia.
    + rewrite iter_shr_1_digits, shr_record_of_loc_m. lia.
  - repeat split; lia.
Qed.

(** *** The rounding of a significand *)

(** The rounding keeps the sign and never yields a NaN. *)
Lemma binary_round_aux_sign (sx : bool) (mx ex : Z) (lx : location) :
  0 <= mx ->
  has_sign sx (binary_round_aux prec emax sx mx ex lx).
Proof.
  intros Hm. unfold binary_round_aux.
  pose proof (shr_fexp_spec mx ex lx Hm) as H1.
  destruct (shr_fexp prec emax mx ex lx) as [mrs' e'].
  destruct H1 as (Hm' & _).
  destruct (round_nearest_even_digits (shr_m mrs') (loc_of_shr_record mrs') Hm')
    as (Hr & _).
  pose proof (shr_fexp_spec _ e' loc_Exact Hr) as H2.
  destruct (shr_fexp prec emax _ e' loc_Exact) as [mrs'' e''].
  destruct H2 as (Hm'' & _).
  destruct (shr_m mrs'') as [|m|m]; [reflexivity| |lia].
  now destruct (e'' <=? emax - prec).
Qed.

(** A value above the smallest subnormal is not rounded to zero. *)
Lemma binary_round_aux_nonzero (sx : bool) (mx ex : Z) (lx : location) :
  0 < mx ->
  emin prec emax < Zdigits2 mx + ex ->
  nonzero (binary_round_aux prec emax sx mx ex lx).
Proof.
  intros Hm Hmag. unfold binary_round_aux.
  pose proof (shr_fexp_spec mx ex lx (Z.lt_le_incl _ _ Hm)) as H1.
  destruct (shr_fexp prec emax mx ex lx) as [mrs' e'].
  destruct H1 as (Hm' & He' & Hd').
  destruct (round_nearest_even_digits (shr_m mrs') (loc_of_shr_record mrs') Hm')
    as (Hr & Hdr).
  pose proof (shr_fexp_spec _ e' loc_Exact Hr) as H2.
  destruct (shr_fexp prec emax _ e' loc_Exact) as [mrs'' e''].
  destruct H2 as (Hm'' & He'' & Hd'').
  rewrite fexp_spec in He', He''.
  assert (0 < Zdigits2 mx) by (apply Zdigits2_pos; lia).
  destruct (shr_m mrs'') as [|m|m] eqn:Hm2; [|now destruct (e'' <=? emax - prec)|lia].
  cbn in Hd''. lia.
Qed.

(** A value above the smallest subnormal and of magnitude below
    [2^(emax - 1)] is rounded to a finite non-zero value. *)
Lemma binary_round_aux_finite (sx : bool) (mx ex : Z) (lx : location) :
  0 < mx ->
  emin prec emax < Zdigits2 mx + ex ->
  ex <= emax - prec ->
  Zdigits2 mx + ex < emax ->
  exists m e, binary_round_aux prec emax sx mx ex lx = S754_finite sx m e.
Proof.
  intros Hm Hmag Hex Hmax. unfold binary_round_aux.
  pose proof (shr_fexp_spec mx ex lx (Z.lt_le_incl _ _ Hm)) as H1.
  destruct (shr_fexp prec emax mx ex lx) as [mrs' e'].
  destruct H1 as (Hm' & He' & Hd').
  destruct (round_nearest_even_digits (shr_m mrs') (loc_of_shr_record mrs') Hm')
    as (Hr & Hdr).
  pose proof (shr_fexp_spec _ e' loc_Exact Hr) as H2.
  destruct (shr_fexp prec emax _ e' loc_Exact) as [mrs'' e''].
  destruct H2 as (Hm'' & He'' & Hd'').
  rewrite fexp_spec in He', He''.
  pose proof emin_nonpos.
  assert (0 < Zdigits2 mx) by (apply Zdigits2_pos; lia).
  destruct (shr_m mrs'') as [|m|m] eqn:Hm2; [cbn in Hd''; lia| |lia].
  destruct (Z.leb_spec e'' (emax - prec)); [now exists m, e''|].
  unfold emin in *. lia.
Qed.

Lemma binary_round_sign (sx : bool) (mx : positive) (ex : Z) :
  has_sign sx (binary_round prec emax sx mx ex).
Proof.
  unfold binary_round.
  destruct (shl_align mx ex _) as [mz ez].
  now apply binary_round_aux_sign.
Qed.

Lemma binary_round_nonzero (sx : bool) (mx : positive) (ex : Z) :
  emin prec emax < Z.pos (digits2_pos mx) + ex ->
  nonzero (binary_round prec emax sx mx ex).
Proof.
  intros Hmag. unfold binary_round.
  pose proof (shl_align_spec mx ex (SpecFloat.fexp prec emax
                (Z.pos (digits2_pos mx) + ex))) as Hshl.
  destruct (shl_align mx ex _) as [mz ez].
  destruct Hshl as (_ & Hd).
  apply binary_round_aux_nonzero; [lia|].
  cbn [Zdigits2]. lia.
Qed.

Lemma binary_round_finite (sx : bool) (mx : positive) (ex : Z) :
  emin prec emax < Z.pos (digits2_pos mx) + ex ->
  ex <= emax - prec ->
  Z.pos (digits2_pos mx) + ex < emax ->
  exists m e, binary_round prec emax sx mx ex = S754_finite sx m e.
Proof.
  intros Hmag Hex Hmax. unfold binary_round.
  pose proof (shl_align_spec mx ex (SpecFloat.fexp prec emax
                (Z.pos (digits2_pos mx) + ex))) as Hshl.
  destruct (shl_align mx ex _) as [mz ez].
  destruct Hshl as (He & Hd).
  apply binary_round_aux_finite; cbn [Zdigits2]; lia.
Qed.

Lemma binary_normalize_not_nan (m e : Z) (szero : bool) :
  not_nan (binary_normalize prec emax m e szero).
Proof.
  destruct m as [|p|p]; cbn [binary_normalize]; [exact I| |].
  - pose proof (binary_round_sign false p e) as Hs.
    now destruct (binary_round prec emax false p e).
  - pose proof (binary_round_sign true p e) as Hs.
    now destruct (binary_round prec emax true p e).
Qed.

(** *** The operations of the calculator *)

(** The conversion of a count of at least one is positive. *)
Lemma of_count_nonzero (n : Z) :
  0 < n ->
  nonneg (binary_normalize prec emax n 0 false) /\
  nonzero (binary_normalize prec emax n 0 false).
Proof.
  intros Hn. destruct n as [|p|p]; [lia| |lia].
  cbn [binary_normalize]. split.
  - apply binary_round_sign.
  - apply binary_round_nonzero. pose proof emin_nonpos. lia.
Qed.

(** The conversion of a count that a [size_t] holds is finite when the
    format reaches [2^64]. *)
Lemma of_count_finite (n : Z) :
  65 < emax ->
  0 < n < 2 ^ 64 ->
  exists m e, binary_normalize prec emax n 0 false = S754_finite false m e.
Proof.
  intros Hemax Hn. destruct n as [|p|p]; [lia| |lia].
  cbn [binary_normalize].
  pose proof (digits2_pos_bound p 64 ltac:(lia) ltac:(lia)).
  pose proof emin_nonpos.
  apply binary_round_finite; lia.
Qed.

Lemma SFsub_not_nan (x y : fp) :
  is_number x = true -> is_number y = true ->
  not_nan (SFsub prec emax x y).
Proof.
  destruct x as [sx|sx| |sx mx ex], y as [sy|sy| |sy my ey];
    try discriminate; intros _ _; cbn [SFsub].
  - now destruct sx, sy.
  - exact I.
  - exact I.
  - apply binary_normalize_not_nan.
Qed.

Lemma SFmul_square_nonneg (d : fp) :
  not_nan d -> nonneg (SFmul prec emax d d).
Proof.
  destruct d as [s|s| |s m e]; intros Hd; cbn [SFmul].
  - now destruct s.
  - now destruct s.
  - destruct Hd.
  - replace (xorb s s) with false by now destruct s.
    now apply binary_round_aux_sign.
Qed.

Lemma SFadd_nonneg (x y : fp) :
  nonneg x -> nonneg y -> nonneg (SFadd prec emax x y).
Proof.
  destruct x as [sx|sx| |sx mx ex], y as [sy|sy| |sy my ey];
    cbn [nonneg has_sign]; try contradiction; intros -> ->; cbn [SFadd];
    try reflexivity.
  cbn [cond_Zopp].
  match goal with
  | |- nonneg (binary_normalize _ _ (Z.pos ?a + Z.pos ?b) _ _) =>
      change (Z.pos a + Z.pos b) with (Z.pos (a + b))
  end.
  apply binary_round_sign.
Qed.

Lemma SFdiv_nonneg (x : fp) (my : positive) (ey : Z) :
  nonneg x -> nonneg (SFdiv prec emax x (S754_finite false my ey)).
Proof.
  destruct x as [sx|sx| |sx mx ex]; cbn [nonneg has_sign];
    try contradiction; intros ->; cbn [SFdiv]; try reflexivity.
  unfold SFdiv_core_binary.
  set (s := _ - _ - _).
  set (m' := match s with Z.pos _ => _ | _ => _ end).
  assert (Hm' : 0 <= m').
  { subst m'. destruct s; [lia| |lia]. apply Z.shiftl_nonneg. lia. }
  pose proof (Z_div_mod m' (Z.pos my) ltac:(lia)) as Hdiv.
  destruct (Z.div_eucl m' (Z.pos my)) as [q r].
  apply binary_round_aux_sign. nia.
Qed.

Lemma SFsqrt_nonneg (x : fp) :
  nonneg x -> nonneg (SFsqrt prec emax x).
Proof.
  destruct x as [sx|sx| |sx mx ex]; cbn [nonneg has_sign];
    try contradiction; intros ->; cbn [SFsqrt]; try reflexivity.
  unfold SFsqrt_core_binary.
  set (m' := match _ with Z.pos _ => _ | _ => _ end).
  pose proof (Z.sqrtrem_sqrt m') as Hq.
  pose proof (Z.sqrt_nonneg m') as Hq'.
  destruct (Z.sqrtrem m') as [q r]. cbn [fst] in Hq. subst q.
  now apply binary_round_aux_sign.
Qed.

Lemma nonneg_ge0 (x : fp) :
  nonneg x -> SFleb (S754_zero false) x = true.
Proof.
  destruct x as [sx|sx| |sx mx ex]; cbn [nonneg has_sign];
    try contradiction; intros ->; reflexivity.
Qed.
End FormatFacts.

(** ** The calculator on numbers *)

Lemma prec_pos (T : Representation) : 0 < prec T.
Proof. now destruct T. Qed.

Lemma prec_lt_emax (T : Representation) : prec T < emax T.
Proof. now destruct T. Qed.

Lemma emax_reaches_size_t (T : Representation) : 65 < emax T.
Proof. now destruct T. Qed.

Section Results.
Variable T : Representation.

Lemma successive_differences_not_nan (sample : list fp) :
  Forall (fun x => is_number x = true) sample ->
  Forall not_nan (successive_differences T sample).
Proof.
  intros Hnum. rewrite Forall_forall in Hnum.
  apply Forall_forall. intros d Hd.
  apply in_map_iff in Hd. destruct Hd as (i & <- & Hi).
  apply in_seq in Hi.
  apply SFsub_not_nan; apply Hnum, nth_In; lia.
Qed.

Lemma squares_nonneg (diffs : list fp) :
  Forall not_nan diffs ->
  Forall nonneg (map (fun d => fmul T d d) diffs).
Proof.
  intros Hd. apply Forall_map.
  eapply Forall_impl; [|exact Hd].
  intros d. apply SFmul_square_nonneg.
Qed.

Lemma accumulate_nonneg (xs : list fp) (acc : fp) :
  nonneg acc -> Forall nonneg xs -> nonneg (accumulate T acc xs).
Proof.
  intros Hacc Hxs. revert acc Hacc.
  induction Hxs as [|x xs Hx _ IH]; intros acc Hacc; [exact Hacc|].
  cbn [accumulate]. apply IH.
  now apply SFadd_nonneg.
Qed.

(** On numbers, as many as a [size_t] counts, the result is [+0],
    positive or [+infinity]. *)
Lemma rmssd_spec_nonneg (sample : list fp) :
  (2 <= List.length sample)%nat ->
  Z.of_nat (List.length sample) <= 2 ^ 64 ->
  Forall (fun x => is_number x = true) sample ->
  nonneg (rmssd_spec T sample).
Proof.
  intros Hlen Hmax Hnum. unfold rmssd_spec.
  apply SFsqrt_nonneg.
  destruct (of_count_finite (prec T) (emax T) (prec_pos T) (prec_lt_emax T)
              (Z.of_nat (List.length sample - 1)) (emax_reaches_size_t T))
    as (m & e & Hcount); [lia|].
  unfold fdiv, of_Z. rewrite Hcount.
  apply SFdiv_nonneg.
  apply accumulate_nonneg; [reflexivity|].
  now apply squares_nonneg, successive_differences_not_nan.
Qed.

Lemma squares_of_zeros (diffs : list fp) :
  Forall (fun d => is_zero d = true) diffs ->
  Forall (eq (S754_zero false)) (map (fun d => fmul T d d) diffs).
Proof.
  intros Hd. apply Forall_map.
  eapply Forall_impl; [|exact Hd].
  intros [s|s| |s m e]; try discriminate. now destruct s.
Qed.

Lemma accumulate_zeros (xs : list fp) :
  Forall (eq (S754_zero false)) xs ->
  accumulate T (S754_zero false) xs = S754_zero false.
Proof.
  induction 1 as [|x xs <- _ IH]; [reflexivity|exact IH].
Qed.

(** When every difference is a zero the result is [+0]. *)
Lemma rmssd_spec_zero_differences (sample : list fp) :
  (2 <= List.length sample)%nat ->
  Forall (fun d => is_zero d = true) (successive_differences T sample) ->
  rmssd_spec T sample = S754_zero false.
Proof.
  intros Hlen Hzero. unfold rmssd_spec.
  rewrite (accumulate_zeros _ (squares_of_zeros _ Hzero)).
  destruct (of_count_nonzero (prec T) (emax T) (prec_pos T) (prec_lt_emax T)
              (Z.of_nat (List.length sample - 1))) as (Hsign & Hnz); [lia|].
  unfold fdiv, of_Z.
  destruct (binary_normalize _ _ _ 0 false) as [s|s| |s m e];
    cbn in Hsign, Hnz; try contradiction; subst s; reflexivity.
Qed.
End Results.

(** C6. When the samples are at least two and every successive difference
    is exactly zero, as for the constant samples 2.0, 2.0, 2.0, the result
    is exactly zero ([+0]) in every representation. *)
Theorem calculateRMSSD_zero_differences (T : Representation) (fs : filesystem)
    (path : string) (roundTo : Z) (sample : list fp) :
  loadIntervals T fs path roundTo = Return sample ->
  (2 <= List.length sample)%nat ->
  Forall (fun d => is_zero d = true) (diff_loop T sample true S754_nan []) ->
  snd (calculateRMSSD T fs path roundTo) = Return (S754_zero false).
Proof.
  intros Hload Hlen Hzero.
  rewrite (calculateRMSSD_loaded T fs path roundTo sample Hload).
  destruct (Nat.ltb_spec (List.length sample) 2); [lia|].
  cbn [snd]. f_equal.
  rewrite rmssd_steps.
  apply rmssd_spec_zero_differences; [assumption|].
  now rewrite <- (diff_loop_from_begin T sample S754_nan).
Qed.

(** C8. On a sequence of at least two samples, each of them a number, the
    result compares greater than or equal to zero. *)
Theorem calculateRMSSD_nonneg (T : Representation) (fs : filesystem)
    (path : string) (roundTo : Z) (sample : list fp) :
  loadIntervals T fs path roundTo = Return sample ->
  (2 <= List.length sample)%nat ->
  Z.of_nat (List.length sample) <= 2 ^ 64 ->
  Forall (fun x => is_number x = true) sample ->
  exists v,
    snd (calculateRMSSD T fs path roundTo) = Return v /\ fge0 v = true.
Proof.
  intros Hload Hlen Hmax Hnum.
  rewrite (calculateRMSSD_loaded T fs path roundTo sample Hload).
  destruct (Nat.ltb_spec (List.length sample) 2); [lia|].
  exists (rmssd T sample). split; [reflexivity|].
  rewrite rmssd_steps.
  apply nonneg_ge0.
  now apply rmssd_spec_nonneg.
Qed.

(** The samples have to be numbers: two equal infinities, which the loader
    makes of the lines [3e38] when it rounds [float] values to three places,
    have no difference, and the result is a NaN. *)
Lemma calculateRMSSD_of_infinities :
  loadIntervals Float (data_file ("3e38" ++ newline ++ "3e38")) dataFilePath 3 =
    Return [S754_infinity false; S754_infinity false] /\
  rmssd Float [S754_infinity false; S754_infinity false] = S754_nan /\
  fge0 S754_nan = false.
Proof.
  repeat split; vm_compute; reflexivity.
Qed.

Lemma calculateRMSSD_zero_differences_witness :
  loadIntervals Float (data_file ("2.0" ++ newline ++ "2.0" ++ newline ++ "2.0"))
    dataFilePath 3 =
    Return [S754_finite false 8388608 (-22); S754_finite false 8388608 (-22);
            S754_finite false 8388608 (-22)] /\
  snd (calculateRMSSD Float
         (data_file ("2.0" ++ newline ++ "2.0" ++ newline ++ "2.0"))
         dataFilePath 3) = Return (S754_zero false).
Proof.
  assert (Hload : loadIntervals Float
                    (data_file ("2.0" ++ newline ++ "2.0" ++ newline ++ "2.0"))
                    dataFilePath 3 =
                  Return [S754_finite false 8388608 (-22);
                          S754_finite false 8388608 (-22);
                          S754_finite false 8388608 (-22)])
    by (vm_compute; reflexivity).
  split; [exact Hload|].
  apply (calculateRMSSD_zero_differences Float _ dataFilePath 3 _ Hload).
  - simpl. lia.
  - vm_compute. repeat constructor.
Defined.

Lemma calculateRMSSD_nonneg_witness :
  loadIntervals Double
    (data_file ("1000" ++ newline ++ "1020" ++ newline ++ "1000" ++ newline ++
                "1050" ++ newline)) dataFilePath (-1) =
    Return [of_Z Double 1000; of_Z Double 1020; of_Z Double 1000;
            of_Z Double 1050] /\
  exists v,
    snd (calculateRMSSD Double
           (data_file ("1000" ++ newline ++ "1020" ++ newline ++ "1000" ++
                       newline ++ "1050" ++ newline)) dataFilePath (-1)) =
      Return v /\
    fge0 v = true.
Proof.
  assert (Hload : loadIntervals Double
                    (data_file ("1000" ++ newline ++ "1020" ++ newline ++
                                "1000" ++ newline ++ "1050" ++ newline))
                    dataFilePath (-1) =
                  Return [of_Z Double 1000; of_Z Double 1020; of_Z Double 1000;
                          of_Z Double 1050])
    by (vm_compute; reflexivity).
  split; [exact Hload|].
  apply (calculateRMSSD_nonneg Double _ dataFilePath (-1) _ Hload).
  - simpl. lia.
  - vm_compute. discriminate.
  - vm_compute. repeat constructor.
Defined.

(** ** The multiplier of the rounding *)

(** Up to 22 decimal places, where [10^N] is a [double], the multiplier
    is nevertheless the value that the representation itself would have
    computed. *)
Lemma multiplier_in_format (T : Representation) (N : Z) :
  0 <= N <= 22 -> multiplier T N = pow10_in T N.
Proof.
  intros HN.
  assert (Hn : exists n, N = Z.of_nat n /\ (n <= 22)%nat)
    by (exists (Z.to_nat N); lia).
  destruct Hn as (n & -> & Hn).
  do 23 (destruct n as [|n]; [destruct T; vm_compute; reflexivity|]).
  lia.
Qed.


(** ** Values of significands *)

Section Values.
Local Open Scope R_scope.

Lemma bpow_pos (e : Z) : 0 < bpow e.
Proof. apply powerRZ_lt. lra. Qed.

Lemma bpow_add (a b : Z) : bpow (a + b) = bpow a * bpow b.
Proof. apply powerRZ_add. lra. Qed.


Lemma bpow_1 : bpow 1 = 2.
Proof. unfold bpow, powerRZ. simpl. lra. Qed.

Lemma bpow_succ (e : Z) : bpow (e + 1) = 2 * bpow e.
Proof. rewrite bpow_add, bpow_1. lra. Qed.


Lemma bpow_IZR (n : Z) : (0 <= n)%Z -> bpow n = IZR (2 ^ n).
Proof.
  intros Hn. unfold bpow.
  rewrite <- (Z2Nat.id n Hn).
  rewrite <- pow_powerRZ, <- pow_IZR. reflexivity.
Qed.

Lemma bpow_ge_1 (n : Z) : (0 <= n)%Z -> 1 <= bpow n.
Proof.
  intros Hn. rewrite bpow_IZR by exact Hn.
  apply IZR_le. pose proof (Z.pow_pos_nonneg 2 n). lia.
Qed.

Lemma bpow_le (a b : Z) : (a <= b)%Z -> bpow a <= bpow b.
Proof.
  intros H. replace b with (a + (b - a))%Z by lia.
  rewrite bpow_add.
  pose proof (bpow_ge_1 (b - a) ltac:(lia)).
  pose proof (bpow_pos a). nra.
Qed.

Lemma bpow_lt (a b : Z) : (a < b)%Z -> bpow a < bpow b.
Proof.
  intros H. replace b with ((b - 1) + 1)%Z by lia.
  rewrite bpow_succ.
  pose proof (bpow_le a (b - 1) ltac:(lia)).
  pose proof (bpow_pos (b - 1)). lra.
Qed.


(** *** Shifts to the right, with the value they discard *)







Lemma digits2_pos_upper (p : positive) :
  (Z.pos p < 2 ^ Z.pos (digits2_pos p))%Z.
Proof.
  induction p as [p IH|p IH|]; cbn [digits2_pos]; [| |cbn; lia];
    rewrite Pos2Z.inj_succ, Z.pow_succ_r by lia; lia.
Qed.

Lemma digits2_pos_ge (p : positive) (k : Z) :
  (2 ^ (k - 1) <= Z.pos p)%Z -> (k <= Z.pos (digits2_pos p))%Z.
Proof.
  intros Hp. pose proof (digits2_pos_upper p) as Hup.
  destruct (Z.le_gt_cases k (Z.pos (digits2_pos p))) as [|Hgt]; [assumption|].
  assert (2 ^ Z.pos (digits2_pos p) <= 2 ^ (k - 1))%Z
    by (apply Z.pow_le_mono_r; lia).
  lia.
Qed.

End Values.

(** ** The error of one rounding *)

Section RoundingError.
Variables prec emax : Z.
Hypothesis prec_gt_0 : 0 < prec.
Hypothesis prec_below_emax : prec < emax.






(** *** Division *)






(** *** Rounding to an integer *)

Lemma nearest_integer_nonneg (m : positive) (e : Z) :
  0 <= nearest_integer m e.
Proof.
  unfold nearest_integer.
  destruct (0 <=? e).
  - apply Z.shiftl_nonneg. lia.
  - assert (0 <= Z.shiftr (Z.pos m) (- e)) by (apply Z.shiftr_nonneg; lia).
    destruct (_ <=? _); lia.
Qed.


(** *** Dividing an integer by the multiplier and multiplying back *)

End RoundingError.

(** ** Rounding twice *)


Section Idempotence.
Variable T : Representation.
Variable N : Z.
Hypothesis places : 0 <= N <= 37.



End Idempotence.




(** * Further properties of the code *)

(** ** The loader and the rounding policy *)

Section LoaderPolicies.
Variable T : Representation.

(** The loop with rounding does what the loop without does, and rounds
    what it stores. *)
Lemma load_loop_rounded (N : Z) (lines : list string) (intervals : list fp) :
  0 <= N ->
  load_loop T N lines (map (round_places T N) intervals) =
  match load_loop T (-1) lines intervals with
  | Return loaded => Return (map (round_places T N) loaded)
  | Throw e => Throw e
  end.
Proof.
  intros HN. revert intervals.
  induction lines as [|line lines IH]; intros intervals; [reflexivity|].
  cbn [load_loop]. unfold load_line.
  destruct (stringToFP T line) as [num|e]; [|reflexivity].
  destruct (Z.leb_spec 0 N); [|lia].
  cbn [Z.leb Z.compare].
  rewrite <- IH, map_app. reflexivity.
Qed.

(** The loader under any policy, from the loader without rounding. *)
Lemma loadIntervals_any_policy (fs : filesystem) (path : string) (roundTo : Z) :
  loadIntervals T fs path roundTo =
  match loadIntervals T fs path (-1) with
  | Return loaded =>
      Return (if 0 <=? roundTo then map (round_places T roundTo) loaded
              else loaded)
  | Throw e => Throw e
  end.
Proof.
  unfold loadIntervals. destruct (fs path) as [text|]; [|reflexivity].
  destruct (Z.leb_spec 0 roundTo) as [Hpos|Hneg].
  - exact (load_loop_rounded roundTo (getlines text) [] Hpos).
  - rewrite (load_loop_no_rounding T roundTo) by exact Hneg.
    now destruct (load_loop T (-1) (getlines text) []).
Qed.

(** The loop stops at the first line that does not convert: the lines
    behind it are not looked at. *)
Lemma load_loop_first_failure (roundTo : Z) (good rest : list string)
    (bad : string) (e : exn) (intervals : list fp) :
  Forall (fun line => exists num, stringToFP T line = Return num) good ->
  stringToFP T bad = Throw e ->
  load_loop T roundTo (good ++ bad :: rest) intervals = Throw e.
Proof.
  intros Hgood Hbad. revert intervals.
  induction Hgood as [|line good [num Hnum] _ IH]; intros intervals;
    cbn [app load_loop]; unfold load_line.
  - now rewrite Hbad.
  - rewrite Hnum. apply IH.
Qed.

(** A loop that returns has converted every line. *)
Lemma load_loop_converted (roundTo : Z) (lines : list string)
    (intervals result : list fp) :
  load_loop T roundTo lines intervals = Return result ->
  Forall (fun line => exists num, stringToFP T line = Return num) lines /\
  List.length result = (List.length intervals + List.length lines)%nat.
Proof.
  intros Hloop.
  destruct (load_loop_lines T roundTo lines intervals result Hloop)
    as (loaded & -> & Hall).
  split.
  - clear Hloop. induction Hall as [|line num lines loaded Hline _ IH];
      constructor; [|exact IH].
    unfold load_line in Hline.
    destruct (stringToFP T line) as [num'|e]; [now exists num'|discriminate].
  - rewrite length_app. f_equal. symmetry. exact (Forall2_length Hall).
Qed.
End LoaderPolicies.

(** X1. With [roundTo >= 0] the loader returns the samples of the loader
    without rounding, each one put through the rounding step, and fails
    where and as the loader without rounding fails. *)
Theorem loadIntervals_rounds_what_it_loads (T : Representation)
    (fs : filesystem) (path : string) (N : Z) :
  0 <= N ->
  loadIntervals T fs path N =
  match loadIntervals T fs path (-1) with
  | Return loaded => Return (map (round_places T N) loaded)
  | Throw e => Throw e
  end.
Proof.
  intros HN. rewrite loadIntervals_any_policy.
  destruct (loadIntervals T fs path (-1)); [|reflexivity].
  now destruct (Z.leb_spec 0 N); [|lia].
Qed.

Lemma loadIntervals_rounds_what_it_loads_witness :
  0 <= 3 /\
  loadIntervals Float (data_file ("812.5678" ++ newline ++ "abc")) dataFilePath 3 =
  match loadIntervals Float (data_file ("812.5678" ++ newline ++ "abc"))
          dataFilePath (-1) with
  | Return loaded => Return (map (round_places Float 3) loaded)
  | Throw e => Throw e
  end.
Proof.
  assert (HN : 0 <= 3) by lia.
  split; [exact HN|].
  exact (loadIntervals_rounds_what_it_loads Float _ dataFilePath 3 HN).
Defined.

(** X2. A calculation that fails under one rounding policy fails with the
    same exception, and as silently, under every other one. *)
Theorem calculateRMSSD_fails_alike (T : Representation) (fs : filesystem)
    (path : string) (roundTo roundTo' : Z) (e : exn) :
  snd (calculateRMSSD T fs path roundTo) = Throw e ->
  calculateRMSSD T fs path roundTo' = ([], Throw e).
Proof.
  intros Hfail.
  pose proof (loadIntervals_any_policy T fs path roundTo) as H1.
  pose proof (loadIntervals_any_policy T fs path roundTo') as H2.
  destruct (loadIntervals T fs path (-1)) as [loaded|e0].
  - rewrite (calculateRMSSD_loaded T fs path roundTo _ H1) in Hfail.
    rewrite (calculateRMSSD_loaded T fs path roundTo' _ H2).
    assert (Hlen : forall r : Z,
              List.length (if 0 <=? r then map (round_places T r) loaded
                           else loaded) = List.length loaded).
    { intros r. destruct (0 <=? r); [apply length_map|reflexivity]. }
    rewrite Hlen in *.
    destruct (List.length loaded <? 2)%nat; cbn in Hfail; [|discriminate].
    now injection Hfail as <-.
  - rewrite (calculateRMSSD_not_loaded T fs path roundTo _ H1) in Hfail.
    rewrite (calculateRMSSD_not_loaded T fs path roundTo' _ H2).
    cbn in Hfail. now injection Hfail as <-.
Qed.

Lemma calculateRMSSD_fails_alike_witness :
  snd (calculateRMSSD Double (data_file "1e999") dataFilePath (-1)) =
    Throw (std_out_of_range "stod") /\
  calculateRMSSD Double (data_file "1e999") dataFilePath 3 =
    ([], Throw (std_out_of_range "stod")).
Proof.
  assert (Hfail : snd (calculateRMSSD Double (data_file "1e999")
                         dataFilePath (-1)) =
                  Throw (std_out_of_range "stod"))
    by (vm_compute; reflexivity).
  split; [exact Hfail|].
  exact (calculateRMSSD_fails_alike Double _ dataFilePath (-1) 3 _ Hfail).
Defined.

(** X3. A calculation returns a result exactly when the data file can be
    opened, holds at least two lines, and every line converts; it has then
    written the width of the representation, and nothing else. *)
Theorem calculateRMSSD_returns_iff (T : Representation) (fs : filesystem)
    (path : string) (roundTo : Z) :
  (exists v,
     calculateRMSSD T fs path roundTo =
     ([cout (to_string (sizeof T * 8) ++ "-bit float")], Return v)) <->
  (exists text,
     fs path = Some text /\
     (2 <= List.length (getlines text))%nat /\
     Forall (fun line => exists num, stringToFP T line = Return num)
            (getlines text)).
Proof.
  split.
  - intros [v Hcall].
    destruct (loadIntervals T fs path roundTo) as [loaded|e] eqn:Hload.
    + rewrite (calculateRMSSD_loaded T fs path roundTo loaded Hload) in Hcall.
      destruct (Nat.ltb_spec (List.length loaded) 2) as [|Hlen];
        [discriminate|].
      unfold loadIntervals in Hload.
      destruct (fs path) as [text|]; [|discriminate].
      destruct (load_loop_converted T roundTo _ _ _ Hload) as (Hall & Hcount).
      exists text. cbn in Hcount. repeat split; [lia|exact Hall].
    + rewrite (calculateRMSSD_not_loaded T fs path roundTo e Hload) in Hcall.
      discriminate.
  - intros (text & Hopen & Hlen & Hall).
    destruct (load_loop_returns T roundTo _ [] Hall) as [loaded Hloop].
    assert (Hload : loadIntervals T fs path roundTo = Return loaded)
      by (unfold loadIntervals; now rewrite Hopen).
    destruct (load_loop_converted T roundTo _ _ _ Hloop) as (_ & Hcount).
    rewrite (calculateRMSSD_loaded T fs path roundTo loaded Hload).
    destruct (Nat.ltb_spec (List.length loaded) 2); [cbn in Hcount; lia|].
    now exists (rmssd T loaded).
Qed.

(** X4. The first line that does not convert decides: the calculation
    fails with the exception of that line, whatever the lines behind it
    are. *)
Theorem calculateRMSSD_first_malformed_line (T : Representation)
    (fs : filesystem) (path : string) (roundTo : Z) (text : string)
    (good rest : list string) (bad : string) (e : exn) :
  fs path = Some text ->
  getlines text = good ++ bad :: rest ->
  Forall (fun line => exists num, stringToFP T line = Return num) good ->
  stringToFP T bad = Throw e ->
  calculateRMSSD T fs path roundTo = ([], Throw e).
Proof.
  intros Hopen Hlines Hgood Hbad.
  apply calculateRMSSD_not_loaded.
  unfold loadIntervals. rewrite Hopen, Hlines.
  now apply load_loop_first_failure.
Qed.

Lemma calculateRMSSD_first_malformed_line_witness :
  calculateRMSSD Float
    (data_file ("1000" ++ newline ++ "1e50" ++ newline ++ "abc"))
    dataFilePath 3 = ([], Throw (std_out_of_range "stof")).
Proof.
  apply (calculateRMSSD_first_malformed_line Float _ dataFilePath 3
           ("1000" ++ newline ++ "1e50" ++ newline ++ "abc")
           ["1000"%string] ["abc"%string] "1e50").
  - reflexivity.
  - vm_compute. reflexivity.
  - repeat constructor. eexists. vm_compute. reflexivity.
  - vm_compute. reflexivity.
Defined.

(** ** Lines that are not numbers *)

Lemma skip_space_blank (line : string) :
  blank line = true -> skip_space line = EmptyString.
Proof.
  induction line as [|c line IH]; [reflexivity|].
  cbn [blank skip_space]. intros H. apply andb_true_iff in H.
  destruct H as (Hc & Hline). rewrite Hc. now apply IH.
Qed.

(** No conversion can be done on white space. *)
Lemma stringToFP_blank (T : Representation) (line : string) :
  blank line = true ->
  stringToFP T line = Throw (std_invalid_argument (sto_name T)).
Proof.
  intros Hblank. unfold stringToFP.
  now rewrite (skip_space_blank line Hblank).
Qed.

(** X5. An empty line, or a line of white space, is not skipped: when the
    lines before it convert, the calculation fails with
    [std::invalid_argument]. *)
Theorem calculateRMSSD_blank_line (T : Representation) (fs : filesystem)
    (path : string) (roundTo : Z) (text : string)
    (good rest : list string) (line : string) :
  fs path = Some text ->
  getlines text = good ++ line :: rest ->
  Forall (fun line => exists num, stringToFP T line = Return num) good ->
  blank line = true ->
  calculateRMSSD T fs path roundTo =
  ([], Throw (std_invalid_argument (sto_name T))).
Proof.
  intros Hopen Hlines Hgood Hblank.
  apply calculateRMSSD_not_loaded.
  unfold loadIntervals. rewrite Hopen, Hlines.
  apply load_loop_first_failure; [exact Hgood|].
  now apply stringToFP_blank.
Qed.

Lemma calculateRMSSD_blank_line_witness :
  calculateRMSSD LongDouble
    (data_file ("1000" ++ newline ++ "1020" ++ newline ++ newline))
    dataFilePath (-1) = ([], Throw (std_invalid_argument "stold")).
Proof.
  apply (calculateRMSSD_blank_line LongDouble _ dataFilePath (-1)
           ("1000" ++ newline ++ "1020" ++ newline ++ newline)
           ["1000"%string; "1020"%string] [] "").
  - reflexivity.
  - vm_compute. reflexivity.
  - repeat constructor; eexists; vm_compute; reflexivity.
  - reflexivity.
Defined.

(** The newline that ends the last line adds no line. *)
Lemma getlines_final_newline (text : string) (c : ascii) :
  code c <> 10 ->
  getlines (text ++ String c newline) = getlines (text ++ String c EmptyString).
Proof.
  intros Hc. induction text as [|a text IH].
  - cbn [append getlines].
    destruct (Z.eqb_spec (code c) 10); [contradiction|]. reflexivity.
  - cbn [append getlines]. now rewrite IH.
Qed.

(** X6. Whether the last line of the data file ends with a newline or
    not makes no difference to a calculation. *)
Theorem calculateRMSSD_final_newline (T : Representation)
    (fs fs' : filesystem) (path : string) (roundTo : Z) (text : string)
    (c : ascii) :
  code c <> 10 ->
  fs path = Some (text ++ String c EmptyString)%string ->
  fs' path = Some (text ++ String c newline)%string ->
  calculateRMSSD T fs' path roundTo = calculateRMSSD T fs path roundTo.
Proof.
  intros Hc Hopen Hopen'.
  unfold calculateRMSSD, loadIntervals.
  now rewrite Hopen, Hopen', getlines_final_newline.
Qed.

Lemma calculateRMSSD_final_newline_witness :
  calculateRMSSD Float (data_file ("1000" ++ newline ++ "1020" ++ newline))
    dataFilePath 3 =
  calculateRMSSD Float (data_file ("1000" ++ newline ++ "1020"))
    dataFilePath 3.
Proof.
  apply (calculateRMSSD_final_newline Float _ _ dataFilePath 3
           ("1000" ++ newline ++ "102") "0").
  - vm_compute. discriminate.
  - reflexivity.
  - reflexivity.
Defined.

(** ** Text behind a number *)

Lemma digit_code (c : ascii) (d : Z) :
  digit c = Some d -> 48 <= code c <= 57.
Proof.
  unfold digit. destruct (Z.leb_spec 48 (code c)), (Z.leb_spec (code c) 57);
    cbn; intros; try discriminate; lia.
Qed.

Lemma digit_lower (c : ascii) (d : Z) :
  digit c = Some d -> lower c = code c.
Proof.
  intros H. apply digit_code in H. unfold lower.
  destruct (Z.leb_spec 65 (code c)); [lia|reflexivity].
Qed.

Lemma append_empty (s : string) : (s ++ EmptyString)%string = s.
Proof.
  induction s as [|a s IH]; [reflexivity|]. cbn [append]. now rewrite IH.
Qed.

(** What stops the reading of digits stops it at once. *)
Lemma scan_stops (rest : string) (acc count : Z) :
  match rest with
  | String c _ => continues_number c = false
  | EmptyString => True
  end ->
  scan digit 10 rest acc count = (acc, count, rest).
Proof.
  destruct rest as [|c rest]; [reflexivity|].
  unfold continues_number. cbn [scan].
  now destruct (digit c).
Qed.

Lemma scan_digits (ds rest : string) (acc count : Z) :
  all_digits ds = true ->
  match rest with
  | String c _ => continues_number c = false
  | EmptyString => True
  end ->
  scan digit 10 (ds ++ rest) acc count =
  (fst (fst (scan digit 10 ds acc count)),
   snd (fst (scan digit 10 ds acc count)), rest).
Proof.
  intros Hds Hrest. revert acc count.
  induction ds as [|c ds IH]; intros acc count.
  - cbn [append]. now rewrite scan_stops.
  - cbn [append scan all_digits] in *.
    destruct (digit c) as [d|]; [|discriminate]. now apply IH.
Qed.

(** X7. Text behind the digits of an integer is ignored: the line is not
    rejected, and converts to the value of the digits. *)
Theorem stringToFP_ignores_text_behind (T : Representation)
    (c : ascii) (ds rest : string) :
  all_digits (String c ds) = true ->
  match rest with
  | String c' _ => continues_number c' = false
  | EmptyString => True
  end ->
  stringToFP T (String c ds ++ rest) = stringToFP T (String c ds).
Proof.
  intros Hds Hrest.
  assert (Hc : exists d, digit c = Some d).
  { cbn [all_digits] in Hds. destruct (digit c) as [d|]; [now exists d|discriminate]. }
  destruct Hc as [d Hd].
  pose proof (digit_code c d Hd) as Hcode.
  pose proof (digit_lower c d Hd) as Hlower.
  assert (Hspace : is_space c = false).
  { unfold is_space.
    destruct (Z.eqb_spec (code c) 32); [lia|].
    destruct (Z.leb_spec 9 (code c)), (Z.leb_spec (code c) 13);
      cbn; try reflexivity; lia. }
  (* neither string starts with white space, a sign or a letter *)
  assert (Hhead : forall s,
            stringToFP T (String c s) =
            match
              match hexadecimal_literal (String c s) with
              | Some l => Some l
              | None => decimal_literal (String c s)
              end
            with
            | None => Throw (std_invalid_argument (sto_name T))
            | Some LitInf => Return (S754_infinity false)
            | Some LitNan => Return S754_nan
            | Some (LitNum m e2 e10) =>
                if m =? 0 then Return (S754_zero false)
                else
                  let num := m * 2 ^ Z.max e2 0 * 10 ^ Z.max e10 0 in
                  let den := 2 ^ Z.max (- e2) 0 * 10 ^ Z.max (- e10) 0 in
                  let v := round_ratio T false num den in
                  if range_error T v num den
                  then Throw (std_out_of_range (sto_name T))
                  else Return v
            end).
  { intros s. unfold stringToFP. cbn [skip_space]. rewrite Hspace.
    unfold sign.
    destruct (Z.eqb_spec (code c) 45); [lia|].
    destruct (Z.eqb_spec (code c) 43); [lia|].
    unfold parse_literal. cbn [starts_with]. rewrite Hlower.
    destruct (Z.eqb_spec (code c) 105); [lia|].
    destruct (Z.eqb_spec (code c) 110); [lia|].
    reflexivity. }
  cbn [append]. rewrite !Hhead.
  (* no hexadecimal constant on either side *)
  assert (Hhex : forall s,
            match s with
            | String x _ => (lower x =? 120) = false
            | EmptyString => True
            end ->
            hexadecimal_literal (String c s) = None).
  { intros [|x s] Hx; [reflexivity|]. cbn [hexadecimal_literal].
    rewrite Hx. now rewrite andb_false_r. }
  assert (Hnox : forall x, continues_number x = false -> (lower x =? 120) = false).
  { intros x. unfold continues_number. destruct (digit x); [discriminate|].
    intros H. apply orb_false_iff in H. apply H. }
  assert (Hdigx : forall x dx, digit x = Some dx -> (lower x =? 120) = false).
  { intros x dx Hx. rewrite (digit_lower x dx Hx).
    apply digit_code in Hx. apply Z.eqb_neq. lia. }
  rewrite (Hhex (ds ++ rest)%string), (Hhex ds).
  - (* the same digits, and no point or exponent behind them *)
    unfold decimal_literal, mantissa.
    change (String c (ds ++ rest)) with (String c ds ++ rest)%string.
    rewrite (scan_digits (String c ds) rest 0 0 Hds Hrest).
    assert (Hall : scan digit 10 (String c ds) 0 0 =
                   (fst (fst (scan digit 10 (String c ds) 0 0)),
                    snd (fst (scan digit 10 (String c ds) 0 0)), EmptyString)).
    { pose proof (scan_digits (String c ds) EmptyString 0 0 Hds I) as H.
      now rewrite append_empty in H. }
    rewrite Hall.
    set (m := fst (fst (scan digit 10 (String c ds) 0 0))).
    set (n := snd (fst (scan digit 10 (String c ds) 0 0))).
    destruct rest as [|c' rest']; [reflexivity|].
    unfold continues_number in Hrest.
    destruct (digit c'); [discriminate|].
    apply orb_false_iff in Hrest. destruct Hrest as (Hrest & _).
    apply orb_false_iff in Hrest. destruct Hrest as (Hpoint & Hexp).
    rewrite Hpoint. unfold exponent. rewrite Hexp. reflexivity.
  - destruct ds as [|x ds']; [exact I|].
    cbn [all_digits] in Hds. rewrite Hd in Hds.
    destruct (digit x) as [dx|] eqn:Hx; [|discriminate].
    exact (Hdigx x dx Hx).
  - destruct ds as [|x ds'].
    + cbn [append]. destruct rest as [|c' rest']; [exact I|].
      now apply Hnox.
    + cbn [append]. cbn [all_digits] in Hds. rewrite Hd in Hds.
      destruct (digit x) as [dx|] eqn:Hx; [|discriminate].
      exact (Hdigx x dx Hx).
Qed.

Lemma stringToFP_ignores_text_behind_witness :
  stringToFP Double "812ms" = stringToFP Double "812".
Proof.
  apply (stringToFP_ignores_text_behind Double "8" "12" "ms");
    vm_compute; reflexivity.
Defined.

(** ** Samples that are not numbers *)

Section NotANumber.
Variable T : Representation.

Lemma fsub_nan_l (y : fp) : fsub T S754_nan y = S754_nan.
Proof. reflexivity. Qed.

Lemma fsub_nan_r (x : fp) : fsub T x S754_nan = S754_nan.
Proof. now destruct x. Qed.

Lemma fadd_nan_r (x : fp) : fadd T x S754_nan = S754_nan.
Proof. now destruct x. Qed.

Lemma accumulate_from_nan (xs : list fp) :
  accumulate T S754_nan xs = S754_nan.
Proof. induction xs as [|x xs IH]; [reflexivity|exact IH]. Qed.

Lemma accumulate_nan (xs : list fp) (acc : fp) :
  In S754_nan xs -> accumulate T acc xs = S754_nan.
Proof.
  revert acc. induction xs as [|x xs IH]; intros acc Hin; [destruct Hin|].
  cbn [accumulate]. destruct Hin as [->|Hin].
  - rewrite fadd_nan_r. apply accumulate_from_nan.
  - now apply IH.
Qed.

(** A NaN among two samples or more is in a difference, whichever its
    place. *)
Lemma successive_differences_nan (sample : list fp) :
  (2 <= List.length sample)%nat ->
  In S754_nan sample ->
  In S754_nan (successive_differences T sample).
Proof.
  intros Hlen Hin.
  destruct (In_nth sample S754_nan S754_nan Hin) as (i & Hi & Hnth).
  assert (Hdiff : exists j,
            (j < List.length (successive_differences T sample))%nat /\
            nth j (successive_differences T sample) S754_nan = S754_nan).
  { rewrite successive_differences_length. destruct i as [|i].
    - exists (1 - 1)%nat. split; [lia|].
      rewrite successive_differences_nth by lia.
      cbn [Nat.sub]. rewrite Hnth. apply fsub_nan_r.
    - exists (S i - 1)%nat. split; [lia|].
      rewrite successive_differences_nth by lia.
      rewrite Hnth. apply fsub_nan_l. }
  destruct Hdiff as (j & Hj & Hnan).
  rewrite <- Hnan at 1. now apply nth_In.
Qed.

Lemma rmssd_nan (sample : list fp) :
  (2 <= List.length sample)%nat ->
  In S754_nan sample ->
  rmssd T sample = S754_nan.
Proof.
  intros Hlen Hin. rewrite rmssd_steps. unfold rmssd_spec.
  rewrite (accumulate_nan _ (S754_zero false)); [reflexivity|].
  change S754_nan with ((fun d => fmul T d d) S754_nan).
  apply in_map. now apply successive_differences_nan.
Qed.
End NotANumber.

(** X8. One sample that is not a number makes the result not a number,
    wherever the sample stands. *)
Theorem calculateRMSSD_nan_sample (T : Representation) (fs : filesystem)
    (path : string) (roundTo : Z) (sample : list fp) :
  loadIntervals T fs path roundTo = Return sample ->
  (2 <= List.length sample)%nat ->
  In S754_nan sample ->
  calculateRMSSD T fs path roundTo =
  ([cout (to_string (sizeof T * 8) ++ "-bit float")%string],
   Return S754_nan).
Proof.
  intros Hload Hlen Hin.
  rewrite (calculateRMSSD_loaded T fs path roundTo sample Hload).
  destruct (Nat.ltb_spec (List.length sample) 2); [lia|].
  now rewrite rmssd_nan.
Qed.

Lemma calculateRMSSD_nan_sample_witness :
  calculateRMSSD Double
    (data_file ("1000" ++ newline ++ "1020" ++ newline ++ "nan" ++ newline
                ++ "980"))
    dataFilePath (-1) = ([cout "64-bit float"%string], Return S754_nan).
Proof.
  apply (calculateRMSSD_nan_sample Double _ dataFilePath (-1)
           [S754_finite false 8796093022208000 (-43);
            S754_finite false 8972014882652160 (-43); S754_nan;
            S754_finite false 8620171161763840 (-43)]).
  - vm_compute. reflexivity.
  - cbn. lia.
  - cbn. tauto.
Defined.

(** ** Samples of the opposite sign *)

Section Opposite.
Variables prec emax : Z.

Lemma binary_round_aux_opp (s : bool) (m e : Z) (l : location) :
  binary_round_aux prec emax (negb s) m e l =
  SFopp (binary_round_aux prec emax s m e l).
Proof.
  unfold binary_round_aux.
  destruct (shr_fexp prec emax m e l) as [mrs' e'].
  destruct (shr_fexp prec emax _ e' loc_Exact) as [mrs'' e''].
  destruct (shr_m mrs''); [reflexivity| |reflexivity].
  now destruct (e'' <=? emax - prec).
Qed.

Lemma binary_round_opp (s : bool) (m : positive) (e : Z) :
  binary_round prec emax (negb s) m e = SFopp (binary_round prec emax s m e).
Proof.
  unfold binary_round.
  destruct (shl_align m e _) as [mz ez]. apply binary_round_aux_opp.
Qed.

Lemma binary_normalize_opp (z e : Z) (sz sz' : bool) :
  z <> 0 ->
  binary_normalize prec emax (- z) e sz =
  SFopp (binary_normalize prec emax z e sz').
Proof.
  destruct z as [|p|p]; intros Hz; [contradiction| |]; cbn [Z.opp binary_normalize].
  - apply (binary_round_opp false).
  - apply (binary_round_opp true).
Qed.

(** The difference of the opposites is the opposite of the difference,
    but for the sign of a zero. *)
Lemma SFsub_opp (x y : fp) :
  SFsub prec emax (SFopp x) (SFopp y) = SFopp (SFsub prec emax x y) \/
  (SFsub prec emax (SFopp x) (SFopp y) = S754_zero false /\
   SFsub prec emax x y = S754_zero false).
Proof.
  destruct x as [sx|sx| |sx mx ex], y as [sy|sy| |sy my ey];
    cbn [SFopp SFsub];
    try (left; reflexivity);
    try (destruct sx, sy; cbn; tauto).
  set (ez := IntDef.Z.min ex ey).
  set (a := Z.pos (fst (shl_align mx ex ez))).
  set (b := Z.pos (fst (shl_align my ey ez))).
  assert (Hopp : cond_Zopp (negb sx) a - cond_Zopp (negb sy) b =
                 - (cond_Zopp sx a - cond_Zopp sy b))
    by (destruct sx, sy; cbn [negb cond_Zopp]; lia).
  rewrite Hopp.
  destruct (Z.eq_dec (cond_Zopp sx a - cond_Zopp sy b) 0) as [E|E].
  - right. rewrite E. split; reflexivity.
  - left. now apply binary_normalize_opp.
Qed.

Lemma SFmul_opp_square (d : fp) :
  SFmul prec emax (SFopp d) (SFopp d) = SFmul prec emax d d.
Proof. destruct d as [[]|[]| |[] m e]; reflexivity. Qed.
End Opposite.

(** The five steps on the opposite samples. *)
Lemma rmssd_spec_opp (T : Representation) (sample : list fp) :
  rmssd_spec T (map SFopp sample) = rmssd_spec T sample.
Proof.
  unfold rmssd_spec.
  rewrite length_map.
  replace (map (fun d => fmul T d d) (successive_differences T (map SFopp sample)))
    with (map (fun d => fmul T d d) (successive_differences T sample));
    [reflexivity|].
  unfold successive_differences. rewrite length_map, !map_map.
  apply map_ext. intros i.
  assert (Hnth : forall j, nth j (map SFopp sample) S754_nan =
                           SFopp (nth j sample S754_nan))
    by (intros j; exact (map_nth SFopp sample S754_nan j)).
  rewrite !Hnth. unfold fsub, fmul.
  destruct (SFsub_opp (prec T) (emax T) (nth i sample S754_nan)
              (nth (i - 1) sample S754_nan)) as [E|[E1 E2]].
  - rewrite E. symmetry. apply SFmul_opp_square.
  - now rewrite E1, E2.
Qed.

(** X9. The result does not depend on the sign of the samples: the
    opposite samples have the same RMSSD. *)
Theorem rmssd_opposite_samples (T : Representation) (sample : list fp) :
  rmssd T (map SFopp sample) = rmssd T sample.
Proof.
  rewrite !rmssd_steps. apply rmssd_spec_opp.
Qed.

(** ** More decimal places than the multiplier can hold *)

Section Overflow.
Variables prec emax : Z.
Hypothesis prec_gt_0 : 0 < prec.
Hypothesis prec_below_emax : prec < emax.

(** A magnitude of [2^emax] or more is rounded to an infinity. *)
Lemma binary_round_aux_overflow (sx : bool) (mx ex : Z) (lx : location) :
  0 < mx ->
  emax < Zdigits2 mx + ex ->
  binary_round_aux prec emax sx mx ex lx = S754_infinity sx.
Proof.
  intros Hm Hmag. unfold binary_round_aux.
  pose proof (shr_fexp_spec prec emax mx ex lx (Z.lt_le_incl _ _ Hm)) as H1.
  destruct (shr_fexp prec emax mx ex lx) as [mrs' e'].
  destruct H1 as (Hm' & He' & Hd').
  destruct (round_nearest_even_digits (shr_m mrs') (loc_of_shr_record mrs') Hm')
    as (Hr & Hdr).
  pose proof (shr_fexp_spec prec emax _ e' loc_Exact Hr) as H2.
  destruct (shr_fexp prec emax _ e' loc_Exact) as [mrs'' e''].
  destruct H2 as (Hm'' & He'' & Hd'').
  rewrite fexp_spec in He', He''.
  assert (0 < Zdigits2 mx) by (apply Zdigits2_pos; lia).
  unfold emin in *.
  destruct (shr_m mrs'') as [|m|m] eqn:Hm2; [cbn in Hd''; lia| |lia].
  destruct (Z.leb_spec e'' (emax - prec)); [lia|reflexivity].
Qed.

Lemma binary_round_overflow (sx : bool) (mx : positive) (ex : Z) :
  emax < Z.pos (digits2_pos mx) + ex ->
  binary_round prec emax sx mx ex = S754_infinity sx.
Proof.
  intros Hmag. unfold binary_round.
  pose proof (shl_align_spec mx ex (SpecFloat.fexp prec emax
                (Z.pos (digits2_pos mx) + ex))) as Hshl.
  destruct (shl_align mx ex _) as [mz ez].
  destruct Hshl as (He & Hd).
  apply binary_round_aux_overflow; cbn [Zdigits2]; lia.
Qed.
End Overflow.

(** [std::pow(10.0, n)] is infinite from [n = 309] on. *)
Lemma pow10_overflow (N : Z) : 308 < N -> pow10 N = S754_infinity false.
Proof.
  intros HN. destruct N as [|p|p]; try lia.
  cbn [pow10]. unfold of_Z.
  assert (Hbig : 2 ^ 1024 <= 10 ^ Z.pos p).
  { apply Z.le_trans with (10 ^ 309).
    - apply Z.leb_le. vm_compute. reflexivity.
    - apply Z.pow_le_mono_r; lia. }
  assert (Hpos : 0 < 2 ^ 1024) by (apply Z.pow_pos_nonneg; lia).
  destruct (10 ^ Z.pos p) as [|q|q]; [lia| |lia].
  cbn [binary_normalize].
  apply binary_round_overflow; [reflexivity|reflexivity|].
  pose proof (digits2_pos_ge q 1025 Hbig) as Hd.
  change (emax Double) with 1024. lia.
Qed.

(** The powers of ten that are finite in [double] and infinite in
    [float]. *)
Lemma multiplier_float_overflow (N : Z) :
  38 < N <= 308 -> multiplier Float N = S754_infinity false.
Proof.
  intros HN.
  assert (Hall : forallb (fun n => match multiplier Float (Z.of_nat n) with
                                   | S754_infinity false => true
                                   | _ => false
                                   end) (seq 39 270) = true)
    by (vm_compute; reflexivity).
  rewrite forallb_forall in Hall.
  specialize (Hall (Z.to_nat N)).
  rewrite Z2Nat.id in Hall by lia.
  destruct (multiplier Float N) as [s|[|]| |s m e];
    try reflexivity; (discriminate Hall; apply in_seq; lia).
Qed.

(** The multiplier is finite up to [max_places] decimal places. *)
Lemma multiplier_finite (T : Representation) (N : Z) :
  0 <= N <= max_places T ->
  exists m e, multiplier T N = S754_finite false m e.
Proof.
  intros HN.
  assert (Hall : forall T,
            forallb (fun n => match multiplier T (Z.of_nat n) with
                              | S754_finite false _ _ => true
                              | _ => false
                              end)
                    (seq 0 (S (Z.to_nat (max_places T)))) = true)
    by (intros []; vm_compute; reflexivity).
  specialize (Hall T). rewrite forallb_forall in Hall.
  specialize (Hall (Z.to_nat N)).
  rewrite Z2Nat.id in Hall by lia.
  destruct (multiplier T N) as [s|s| |[|] m e];
    try (discriminate Hall; apply in_seq; lia).
  now exists m, e.
Qed.

(** The multiplier is infinite from there on, in every representation:
    the power overflows in [double], or in the conversion to [float]. *)
Lemma multiplier_overflow (T : Representation) (N : Z) :
  max_places T < N -> multiplier T N = S754_infinity false.
Proof.
  intros HN.
  destruct (Z.le_gt_cases N 308) as [Hle|Hgt].
  - destruct T; cbn [max_places] in HN; try lia.
    apply multiplier_float_overflow. lia.
  - unfold multiplier. now rewrite pow10_overflow by lia.
Qed.

(** With an infinite multiplier the rounding step yields no number. *)
Lemma round_places_overflow (T : Representation) (N : Z) (num : fp) :
  max_places T < N -> round_places T N num = S754_nan.
Proof.
  intros HN. unfold round_places.
  rewrite (multiplier_overflow T N HN).
  destruct num as [[|]|[|]| |[|] m e]; reflexivity.
Qed.

(** X10. With more decimal places than the multiplier can hold, every
    sample the loader returns is a NaN: the multiplier is infinite. *)
Theorem loadIntervals_too_many_places (T : Representation) (fs : filesystem)
    (path : string) (roundTo : Z) (loaded : list fp) :
  max_places T < roundTo ->
  loadIntervals T fs path roundTo = Return loaded ->
  Forall (fun num => num = S754_nan) loaded.
Proof.
  intros HN. unfold loadIntervals.
  destruct (fs path) as [text|]; [|discriminate].
  intros Hloop.
  destruct (load_loop_lines T roundTo _ _ _ Hloop) as (nums & -> & Hall).
  cbn [app]. clear Hloop.
  induction Hall as [|line num lines nums Hline _ IH]; constructor; [|exact IH].
  unfold load_line in Hline.
  destruct (stringToFP T line) as [v|e]; [|discriminate].
  assert (H0 : (0 <=? roundTo) = true)
    by (apply Z.leb_le; destruct T; cbn [max_places] in HN; lia).
  rewrite H0 in Hline. injection Hline as <-.
  now apply round_places_overflow.
Qed.

Lemma loadIntervals_too_many_places_witness :
  loadIntervals Float (data_file ("1000" ++ newline ++ "1020")) dataFilePath 39 =
    Return [S754_nan; S754_nan] /\
  Forall (fun num => num = S754_nan) [S754_nan; S754_nan].
Proof.
  assert (Hload : loadIntervals Float (data_file ("1000" ++ newline ++ "1020"))
                    dataFilePath 39 = Return [S754_nan; S754_nan])
    by (vm_compute; reflexivity).
  split; [exact Hload|].
  apply (loadIntervals_too_many_places Float
           (data_file ("1000" ++ newline ++ "1020")) dataFilePath 39).
  - cbn. lia.
  - exact Hload.
Defined.

(** ** The driver as a whole *)

(** A loop that throws throws what the conversion of one of its lines
    throws. *)
Lemma load_loop_throw_origin (T : Representation) (roundTo : Z)
    (lines : list string) (intervals : list fp) (e : exn) :
  load_loop T roundTo lines intervals = Throw e ->
  exists line, In line lines /\ stringToFP T line = Throw e.
Proof.
  revert intervals.
  induction lines as [|line lines IH]; intros intervals; [discriminate|].
  cbn [load_loop]. unfold load_line.
  destruct (stringToFP T line) as [num|e'] eqn:Hline.
  - intros Hloop. destruct (IH _ Hloop) as (line' & Hin & Hthrow).
    exists line'. split; [now right|exact Hthrow].
  - intros [= <-]. exists line. split; [now left|exact Hline].
Qed.

(** The exceptions of a calculation: the two [InvalidArgument] of the
    program, and the two of the conversion. *)
Lemma calculateRMSSD_exceptions (T : Representation) (fs : filesystem)
    (path : string) (roundTo : Z) (e : exn) :
  snd (calculateRMSSD T fs path roundTo) = Throw e ->
  (exists errMsg, e = InvalidArgument errMsg) \/
  e = std_invalid_argument (sto_name T) \/
  e = std_out_of_range (sto_name T).
Proof.
  destruct (loadIntervals T fs path roundTo) as [intervals|e'] eqn:Hload.
  - rewrite (calculateRMSSD_loaded T fs path roundTo intervals Hload).
    destruct (List.length intervals <? 2)%nat; cbn; [|discriminate].
    intros [= <-]. left. eexists. reflexivity.
  - rewrite (calculateRMSSD_not_loaded T fs path roundTo e' Hload).
    cbn. intros [= <-]. unfold loadIntervals in Hload.
    destruct (fs path) as [text|].
    + destruct (load_loop_throw_origin T roundTo _ _ _ Hload)
        as (line & _ & Hline).
      right. exact (stringToFP_throws T line e' Hline).
    + injection Hload as <-. left. eexists. reflexivity.
Qed.

(** The statement groups either all complete, or stop after the label of
    the first one whose calculation throws. *)
Lemma reports_outcome (fs : filesystem)
    (cs : list (Representation * string * Z)) :
  (exists out, reports cs fs = (out, Return tt)) \/
  (exists out T label roundTo e,
     In (T, label, roundTo) cs /\
     snd (calculateRMSSD T fs dataFilePath roundTo) = Throw e /\
     reports cs fs = (out ++ [cout label], Throw e)).
Proof.
  induction cs as [|[[T label] roundTo] cs IH].
  - left. now exists [].
  - cbn [reports].
    destruct (snd (calculateRMSSD T fs dataFilePath roundTo)) as [v|e] eqn:Hcall.
    + pose proof (report_returns fs T label roundTo v Hcall) as Hret.
      destruct (report T label fs dataFilePath roundTo) as [out r].
      cbn in Hret. subst r. cbn [bind].
      destruct IH as [(out' & ->)|(out' & T' & label' & roundTo' & e' & Hin & Hcall' & ->)].
      * left. eexists. reflexivity.
      * right. exists (out ++ out'), T', label', roundTo', e'.
        split; [now right|]. split; [exact Hcall'|].
        now rewrite app_assoc.
    + right. exists [], T, label, roundTo, e.
      split; [now left|]. split; [exact Hcall|].
      now rewrite (report_throws fs T label roundTo e Hcall).
Qed.

(** X11. Whatever the file system holds, [main] ends in one of two ways: it
    prompts, waits for a character and returns [EXIT_SUCCESS]; or it is
    left, right after the label of a combination, by the exception of
    the conversion of that combination, without a prompt. It returns no
    other status and no [InvalidArgument] leaves it. *)
Theorem main_exits (fs : filesystem) :
  (exists out,
     main fs =
     (out ++ [cout "Press <enter> to exit"%string; cin_get],
      Return EXIT_SUCCESS)) \/
  (exists out T label roundTo e,
     In (T, label, roundTo) combinations /\
     (e = std_invalid_argument (sto_name T) \/
      e = std_out_of_range (sto_name T)) /\
     main fs = (out ++ [cout label], Throw e)).
Proof.
  rewrite main_reports.
  destruct (reports_outcome fs combinations)
    as [(out & ->)|(out & T & label & roundTo & e & Hin & Hcall & ->)].
  - left. exists out. reflexivity.
  - destruct (calculateRMSSD_exceptions T fs dataFilePath roundTo e Hcall)
      as [(errMsg & ->)|He].
    + left. exists ((out ++ [cout label]) ++ [cerr ("ERROR: " ++ errMsg)%string]).
      cbn. now rewrite <- !app_assoc.
    + right. exists out, T, label, roundTo, e.
      split; [exact Hin|]. split; [exact He|].
      destruct He as [-> | ->]; reflexivity.
Qed.

(** X12. When the data file cannot be opened, [main] writes the first
    label, reports the error of the loader with its source line once, and
    ends as usual: nothing is calculated. *)
Theorem main_missing_data_file (fs : filesystem) :
  fs dataFilePath = None ->
  main fs =
  ([cout "float"%string;
    cerr ("ERROR: rmssd.cpp:71 : could not open data file " ++
          "test/RRIntervals_P7D1_Baseline.txt")%string;
    cout "Press <enter> to exit"%string; cin_get],
   Return EXIT_SUCCESS).
Proof.
  intros Hopen. unfold main, report, calculateRMSSD, loadIntervals.
  change "test/RRIntervals_P7D1_Baseline.txt"%string with dataFilePath.
  rewrite Hopen. reflexivity.
Qed.

Lemma main_missing_data_file_witness :
  main (fun _ => None) =
  ([cout "float"%string;
    cerr ("ERROR: rmssd.cpp:71 : could not open data file " ++
          "test/RRIntervals_P7D1_Baseline.txt")%string;
    cout "Press <enter> to exit"%string; cin_get],
   Return EXIT_SUCCESS).
Proof.
  apply (main_missing_data_file (fun _ => None)). reflexivity.
Defined.

(** What a statement group writes when its calculation has its samples. *)
Lemma report_loaded (T : Representation) (label : string) (fs : filesystem)
    (roundTo : Z) (intervals : list fp) :
  loadIntervals T fs dataFilePath roundTo = Return intervals ->
  (2 <= List.length intervals)%nat ->
  report T label fs dataFilePath roundTo =
  (report_events T label (rmssd T intervals), Return tt).
Proof.
  intros Hload Hlen. unfold report.
  rewrite (calculateRMSSD_loaded T fs dataFilePath roundTo intervals Hload).
  destruct (Nat.ltb_spec (List.length intervals) 2); [lia|].
  reflexivity.
Qed.

(** X13. When the data file has two lines or more and every line converts
    in the three representations, [main] reports the six combinations
    in program order and ends as usual; the three last results are the
    ones of the samples of the three first, rounded one by one. *)
Theorem main_reports_every_combination (fs : filesystem) (text : string) :
  fs dataFilePath = Some text ->
  (2 <= List.length (getlines text))%nat ->
  (forall T,
     Forall (fun line => exists num, stringToFP T line = Return num)
            (getlines text)) ->
  exists sample : Representation -> list fp,
    (forall T, loadIntervals T fs dataFilePath (-1) = Return (sample T)) /\
    main fs =
    (report_events Float "float" (rmssd Float (sample Float)) ++
     report_events Double "double" (rmssd Double (sample Double)) ++
     report_events LongDouble "long double"
       (rmssd LongDouble (sample LongDouble)) ++
     report_events Float "float (rounded to 3 decimal places)"
       (rmssd Float (map (round_places Float 3) (sample Float))) ++
     report_events Double "double (rounded to 3 decimal places)"
       (rmssd Double (map (round_places Double 3) (sample Double))) ++
     report_events LongDouble "long double (rounded to 3 decimal places)"
       (rmssd LongDouble (map (round_places LongDouble 3) (sample LongDouble))) ++
     [cout "Press <enter> to exit"%string; cin_get],
     Return EXIT_SUCCESS).
Proof.
  intros Hopen Hlen Hall.
  assert (Hloads : forall T, exists loaded,
            loadIntervals T fs dataFilePath (-1) = Return loaded /\
            (2 <= List.length loaded)%nat).
  { intros T. unfold loadIntervals. rewrite Hopen.
    destruct (load_loop_returns T (-1) (getlines text) [] (Hall T))
      as [loaded Hloop].
    exists loaded. split; [exact Hloop|].
    destruct (load_loop_converted T (-1) _ _ _ Hloop) as (_ & ->).
    cbn [List.length]. lia. }
  destruct (Hloads Float) as (sF & HF & HlF).
  destruct (Hloads Double) as (sD & HD & HlD).
  destruct (Hloads LongDouble) as (sL & HL & HlL).
  exists (fun T => match T with
                   | Float => sF
                   | Double => sD
                   | LongDouble => sL
                   end).
  split; [now intros []|].
  assert (Hrounded : forall T loaded,
            loadIntervals T fs dataFilePath (-1) = Return loaded ->
            loadIntervals T fs dataFilePath 3 =
            Return (map (round_places T 3) loaded)).
  { intros T loaded Hload.
    rewrite (loadIntervals_any_policy T fs dataFilePath 3), Hload.
    reflexivity. }
  rewrite main_reports. unfold combinations. cbn [reports].
  rewrite (report_loaded Float _ fs (-1) sF HF HlF).
  rewrite (report_loaded Double _ fs (-1) sD HD HlD).
  rewrite (report_loaded LongDouble _ fs (-1) sL HL HlL).
  rewrite (report_loaded Float _ fs 3 _ (Hrounded Float sF HF))
    by now rewrite length_map.
  rewrite (report_loaded Double _ fs 3 _ (Hrounded Double sD HD))
    by now rewrite length_map.
  rewrite (report_loaded LongDouble _ fs 3 _ (Hrounded LongDouble sL HL))
    by now rewrite length_map.
  reflexivity.
Qed.

Lemma main_reports_every_combination_witness :
  exists sample : Representation -> list fp,
    (forall T,
       loadIntervals T (data_file ("812.5678" ++ newline ++ "790.25"))
         dataFilePath (-1) = Return (sample T)) /\
    main (data_file ("812.5678" ++ newline ++ "790.25")) =
    (report_events Float "float" (rmssd Float (sample Float)) ++
     report_events Double "double" (rmssd Double (sample Double)) ++
     report_events LongDouble "long double"
       (rmssd LongDouble (sample LongDouble)) ++
     report_events Float "float (rounded to 3 decimal places)"
       (rmssd Float (map (round_places Float 3) (sample Float))) ++
     report_events Double "double (rounded to 3 decimal places)"
       (rmssd Double (map (round_places Double 3) (sample Double))) ++
     report_events LongDouble "long double (rounded to 3 decimal places)"
       (rmssd LongDouble (map (round_places LongDouble 3) (sample LongDouble))) ++
     [cout "Press <enter> to exit"%string; cin_get],
     Return EXIT_SUCCESS).
Proof.
  apply (main_reports_every_combination
           (data_file ("812.5678" ++ newline ++ "790.25"))
           ("812.5678" ++ newline ++ "790.25")).
  - reflexivity.
  - vm_compute. lia.
  - intros []; vm_compute getlines;
      repeat constructor; eexists; vm_compute; reflexivity.
Defined.

(** ** Lines of the opposite sign *)

Section OppositeSteps.
Variables prec emax : Z.

Lemma SFmul_opp_l (x y : fp) :
  SFmul prec emax (SFopp x) y = SFopp (SFmul prec emax x y).
Proof.
  destruct x as [sx|sx| |sx mx ex], y as [sy|sy| |sy my ey];
    cbn [SFopp SFmul]; try reflexivity;
    try (now destruct sx, sy).
  rewrite <- binary_round_aux_opp. now destruct sx, sy.
Qed.

Lemma SFdiv_opp_l (x y : fp) :
  SFdiv prec emax (SFopp x) y = SFopp (SFdiv prec emax x y).
Proof.
  destruct x as [sx|sx| |sx mx ex], y as [sy|sy| |sy my ey];
    cbn [SFopp SFdiv]; try reflexivity;
    try (now destruct sx, sy).
  destruct (SFdiv_core_binary prec emax (Z.pos mx) ex (Z.pos my) ey)
    as [[mz ez] lz].
  rewrite <- binary_round_aux_opp. now destruct sx, sy.
Qed.
End OppositeSteps.

Section OppositeLines.
Variable T : Representation.

Lemma fround_opp (x : fp) : fround T (SFopp x) = SFopp (fround T x).
Proof.
  destruct x as [sx|sx| |sx mx ex]; try reflexivity.
  cbn [SFopp fround].
  pose proof (nearest_integer_nonneg mx ex) as Hn.
  destruct (Z.eq_dec (nearest_integer mx ex) 0) as [E|E].
  - rewrite E. now destruct sx.
  - replace (cond_Zopp (negb sx) (nearest_integer mx ex))
      with (- cond_Zopp sx (nearest_integer mx ex))
      by (destruct sx; cbn [negb cond_Zopp]; lia).
    apply binary_normalize_opp. destruct sx; cbn [cond_Zopp]; lia.
Qed.

Lemma round_places_opp (N : Z) (num : fp) :
  round_places T N (SFopp num) = SFopp (round_places T N num).
Proof.
  unfold round_places, fdiv, fmul.
  now rewrite SFmul_opp_l, fround_opp, SFdiv_opp_l.
Qed.

(** The conversion reads a minus sign as the opposite value, and fails
    with it as without. *)
Lemma stringToFP_minus (line : string) :
  unsigned line = true ->
  stringToFP T (minus line) =
  match stringToFP T line with
  | Return num => Return (SFopp num)
  | Throw e => Throw e
  end.
Proof.
  intros Hplain. unfold stringToFP, minus.
  change (sign (skip_space (String "-" line))) with (true, line).
  assert (Hsign : sign (skip_space line) = (false, line)).
  { destruct line as [|c line']; [reflexivity|].
    cbn [unsigned] in Hplain.
    apply andb_true_iff in Hplain. destruct Hplain as (Hplain & Hplus).
    apply andb_true_iff in Hplain. destruct Hplain as (Hspace & Hminus).
    apply negb_true_iff in Hspace, Hminus, Hplus.
    cbn [skip_space]. rewrite Hspace. unfold sign.
    now rewrite Hminus, Hplus. }
  rewrite Hsign.
  destruct (parse_literal line) as [[| |m e2 e10]|]; try reflexivity.
  destruct (m =? 0); [reflexivity|].
  set (num := m * 2 ^ Z.max e2 0 * 10 ^ Z.max e10 0).
  set (den := 2 ^ Z.max (- e2) 0 * 10 ^ Z.max (- e10) 0).
  assert (Hopp : round_ratio T true num den =
                 SFopp (round_ratio T false num den)).
  { unfold round_ratio.
    destruct (SFdiv_core_binary (prec T) (emax T) num 0 den 0) as [[mz ez] lz].
    apply (binary_round_aux_opp (prec T) (emax T) false). }
  cbv zeta. rewrite Hopp.
  assert (Hrange : range_error T (SFopp (round_ratio T false num den)) num den =
                   range_error T (round_ratio T false num den) num den)
    by now destruct (round_ratio T false num den).
  rewrite Hrange.
  now destruct (range_error T (round_ratio T false num den) num den).
Qed.

Lemma load_line_minus (roundTo : Z) (line : string) :
  unsigned line = true ->
  load_line T roundTo (minus line) =
  match load_line T roundTo line with
  | Return num => Return (SFopp num)
  | Throw e => Throw e
  end.
Proof.
  intros Hplain. unfold load_line.
  rewrite (stringToFP_minus line Hplain).
  destruct (stringToFP T line) as [num|e]; [|reflexivity].
  destruct (0 <=? roundTo); [|reflexivity].
  now rewrite round_places_opp.
Qed.

Lemma load_loop_minus (roundTo : Z) (lines : list string)
    (intervals : list fp) :
  Forall (fun line => unsigned line = true) lines ->
  load_loop T roundTo (map minus lines) (map SFopp intervals) =
  match load_loop T roundTo lines intervals with
  | Return loaded => Return (map SFopp loaded)
  | Throw e => Throw e
  end.
Proof.
  intros Hall. revert intervals.
  induction Hall as [|line lines Hline _ IH]; intros intervals; [reflexivity|].
  cbn [map load_loop]. rewrite (load_line_minus roundTo line Hline).
  destruct (load_line T roundTo line) as [num|e]; [|reflexivity].
  rewrite <- IH, map_app. reflexivity.
Qed.
End OppositeLines.

(** X14. A minus sign in front of every line changes the sign of every
    sample the loader returns, rounded or not, and nothing else: the loader
    fails on the same line with the same exception. *)
Theorem loadIntervals_opposite_lines (T : Representation)
    (fs fs' : filesystem) (path : string) (roundTo : Z)
    (text text' : string) :
  fs path = Some text ->
  fs' path = Some text' ->
  getlines text' = map minus (getlines text) ->
  Forall (fun line => unsigned line = true) (getlines text) ->
  loadIntervals T fs' path roundTo =
  match loadIntervals T fs path roundTo with
  | Return loaded => Return (map SFopp loaded)
  | Throw e => Throw e
  end.
Proof.
  intros Hopen Hopen' Hlines Hplain. unfold loadIntervals.
  rewrite Hopen, Hopen', Hlines.
  exact (load_loop_minus T roundTo (getlines text) [] Hplain).
Qed.

Lemma loadIntervals_opposite_lines_witness :
  loadIntervals Float
    (data_file ("-812.5678" ++ newline ++ "-1e50" ++ newline)) dataFilePath 3 =
  match
    loadIntervals Float
      (data_file ("812.5678" ++ newline ++ "1e50" ++ newline)) dataFilePath 3
  with
  | Return loaded => Return (map SFopp loaded)
  | Throw e => Throw e
  end.
Proof.
  apply (loadIntervals_opposite_lines Float _ _ dataFilePath 3
           ("812.5678" ++ newline ++ "1e50" ++ newline)
           ("-812.5678" ++ newline ++ "-1e50" ++ newline)).
  - reflexivity.
  - reflexivity.
  - vm_compute. reflexivity.
  - vm_compute getlines. repeat constructor.
Defined.

(** X15. A data file and the file with a minus sign in front of every line
    give the same calculation: the same result, or the same exception. *)
Theorem calculateRMSSD_opposite_lines (T : Representation)
    (fs fs' : filesystem) (path : string) (roundTo : Z)
    (text text' : string) :
  fs path = Some text ->
  fs' path = Some text' ->
  getlines text' = map minus (getlines text) ->
  Forall (fun line => unsigned line = true) (getlines text) ->
  calculateRMSSD T fs' path roundTo = calculateRMSSD T fs path roundTo.
Proof.
  intros Hopen Hopen' Hlines Hplain.
  assert (Hload : loadIntervals T fs' path roundTo =
                  match loadIntervals T fs path roundTo with
                  | Return loaded => Return (map SFopp loaded)
                  | Throw e => Throw e
                  end).
  { unfold loadIntervals. rewrite Hopen, Hopen', Hlines.
    exact (load_loop_minus T roundTo (getlines text) [] Hplain). }
  destruct (loadIntervals T fs path roundTo) as [loaded|e] eqn:Hold.
  - rewrite (calculateRMSSD_loaded T fs' path roundTo _ Hload).
    rewrite (calculateRMSSD_loaded T fs path roundTo _ Hold).
    rewrite length_map, !rmssd_steps, rmssd_spec_opp. reflexivity.
  - rewrite (calculateRMSSD_not_loaded T fs' path roundTo _ Hload).
    now rewrite (calculateRMSSD_not_loaded T fs path roundTo _ Hold).
Qed.

Lemma calculateRMSSD_opposite_lines_witness :
  calculateRMSSD Double
    (data_file ("-812.5" ++ newline ++ "-790.25" ++ newline ++ "-801"))
    dataFilePath 3 =
  calculateRMSSD Double
    (data_file ("812.5" ++ newline ++ "790.25" ++ newline ++ "801"))
    dataFilePath 3.
Proof.
  apply (calculateRMSSD_opposite_lines Double _ _ dataFilePath 3
           ("812.5" ++ newline ++ "790.25" ++ newline ++ "801")
           ("-812.5" ++ newline ++ "-790.25" ++ newline ++ "-801")).
  - reflexivity.
  - reflexivity.
  - vm_compute. reflexivity.
  - vm_compute getlines. repeat constructor.
Defined.

(** ** The lines of a file *)

Lemma getlines_line (line rest : string) :
  no_newline line = true ->
  getlines (line ++ newline ++ rest) = line :: getlines rest.
Proof.
  induction line as [|c line IH]; intros Hline; [reflexivity|].
  cbn [no_newline] in Hline. apply andb_true_iff in Hline.
  destruct Hline as (Hc & Hline). apply negb_true_iff in Hc.
  cbn [append getlines]. rewrite Hc.
  change (line ++ String (ascii_of_nat 10) rest)%string
    with (line ++ newline ++ rest)%string.
  now rewrite (IH Hline).
Qed.

(** X16. A file written one line after the other, a newline behind each,
    is read back as these lines, the empty ones included. *)
Theorem getlines_unlines (lines : list string) :
  Forall (fun line => no_newline line = true) lines ->
  getlines (unlines lines) = lines.
Proof.
  intros Hall. induction Hall as [|line lines Hline _ IH]; [reflexivity|].
  cbn [unlines]. now rewrite (getlines_line line _ Hline), IH.
Qed.

Lemma getlines_unlines_witness :
  getlines (unlines ["812.5"; ""; " 790"]%string) = ["812.5"; ""; " 790"]%string.
Proof.
  apply (getlines_unlines ["812.5"; ""; " 790"]%string).
  repeat constructor.
Defined.

(** X17. The multiplier of the rounding is finite for the numbers of
    decimal places up to [max_places], and for no other: 38 for [float],
    and 308 for [double] and for [long double] alike. *)
Theorem multiplier_finite_iff (T : Representation) (N : Z) :
  0 <= N ->
  (exists m e, multiplier T N = S754_finite false m e) <->
  N <= max_places T.
Proof.
  intros HN. split.
  - intros (m & e & Hfin).
    destruct (Z.le_gt_cases N (max_places T)) as [Hle|Hgt]; [exact Hle|].
    rewrite (multiplier_overflow T N Hgt) in Hfin. discriminate.
  - intros Hle. apply multiplier_finite. lia.
Qed.

Lemma multiplier_finite_iff_witness :
  (exists m e, multiplier LongDouble 308 = S754_finite false m e) <->
  308 <= max_places LongDouble.
Proof.
  apply (multiplier_finite_iff LongDouble 308). lia.
Defined.

(** ** The square root *)

